(** * tsh: a tiny shell with job control

    A shallow embedding of [tsh.c] and the properties of its job table,
    its command evaluator and its signal handlers.

    Conventions of the embedding.
    - A C [int] or [pid_t] is a [Z].  The arithmetic the shell does on them
      is [nextjid++] and [maxjid(jobs)+1]; signed overflow is undefined in C
      and is not given a meaning here.
    - A C string is the [string] of its characters up to the terminating
      NUL.
    - The array [struct job_t jobs[MAXJOBS]] is the list of its slots; a
      pointer to a slot ([struct job_t *]) is the index of that slot, and the
      NULL pointer is [None].
    - The globals [jobs], [nextjid] and [verbose] and everything the process
      has done to the outside world (text written, children forked, signals
      sent) are threaded through the functions as a [shell] record.
    - The wrappers [Sigfillset], [Sigemptyset], [Sigaddset], [Sigprocmask]
      and [Write] are taken to succeed; the signal mask itself is not part
      of the state: what it buys, that a handler never runs in the middle of
      a table update, is reflected by every table operation being one step.
    - A command line comes from [fgets] into a buffer of [MAXLINE] bytes, so
      the copies that [parseline] and [addjob] make of it into buffers of
      the same size are plain copies.
*)

From Stdlib Require Import ZArith String Ascii List Lia.
From stdpp Require Import base numbers list strings pretty.

Local Open Scope Z_scope.

(** ** Manifest constants *)

Definition MAXLINE : Z := 1024.
Definition MAXARGS : nat := 128.
Definition MAXJOBS : Z := 16.

Definition UNDEF : Z := 0.
Definition FG : Z := 1.
Definition BG : Z := 2.
Definition ST : Z := 3.

Definition SIGINT : Z := 2.
Definition SIGCONT : Z := 18.
Definition SIGTSTP : Z := 20.

(** ** Data model *)

Record job_t := Job {
  pid : Z;          (* job PID *)
  jid : Z;          (* job ID [1, 2, ...] *)
  state : Z;        (* UNDEF, BG, FG, or ST *)
  cmdline : string  (* command line *)
}.

(** What the process does to the outside world, in order. *)
Inductive effect :=
  | Print (text : string)        (* printf or Write on standard output *)
  | Forked (child : Z)           (* fork() returned [child] *)
  | Killed (target sig : Z).     (* kill(target, sig) was issued *)

Record shell := Shell {
  jobs : list job_t;   (* The job list *)
  nextjid : Z;         (* next job ID to allocate *)
  verbose : bool;      (* if true, print additional output *)
  log : list effect
}.

Definition nl : string := String (ascii_of_nat 10) EmptyString.

(** The process does [e]; the globals stay as they are. *)
Definition did (e : effect) (s : shell) : shell :=
  Shell (jobs s) (nextjid s) (verbose s) (log s ++ [e]).

Definition emit (text : string) (s : shell) : shell := did (Print text) s.

Definition set_jobs (t : list job_t) (s : shell) : shell :=
  Shell t (nextjid s) (verbose s) (log s).

(** ** Helper routines that manipulate the job list *)

(** clearjob - Clear the entries in a job struct *)
Definition clearjob (job : job_t) : job_t := Job 0 0 UNDEF "".

(** initjobs - Initialize the job list *)
Definition initjobs (t : list job_t) : list job_t := clearjob <$> t.

(** maxjid - Returns largest allocated job ID *)
Definition maxjid (t : list job_t) : Z :=
  foldl (fun max job => if max <? jid job then jid job else max) 0 t.

(** The first slot, in index order, that passes a test: the shape of every
    [for (i = 0; i < MAXJOBS; i++) if (...) return ...] loop of the file. *)
Definition first_slot (P : job_t -> Prop) `{!forall j, Decision (P j)}
    (t : list job_t) : option (nat * job_t) :=
  list_find P t.

(** addjob - Add a job to the job list *)
Definition addjob (p st : Z) (line : string) (s : shell) : Z * shell :=
  if p <? 1 then (0, s)
  else
    match first_slot (fun job => pid job = 0) (jobs s) with
    | Some (i, _) =>
        let job := Job p (nextjid s) st line in
        let next := nextjid s + 1 in
        let next := if MAXJOBS <? next then 1 else next in
        let note :=
          if verbose s
          then [Print ("Added job [" +:+ pretty (jid job) +:+ "] "
                       +:+ pretty (pid job) +:+ " " +:+ cmdline job +:+ nl)]
          else [] in
        (1, Shell (<[i := job]> (jobs s)) next (verbose s) (log s ++ note))
    | None => (0, emit ("Tried to create too many jobs" +:+ nl) s)
    end.

(** deletejob - Delete a job whose PID=pid from the job list *)
Definition deletejob (p : Z) (s : shell) : Z * shell :=
  if p <? 1 then (0, s)
  else
    match first_slot (fun job => pid job = p) (jobs s) with
    | Some (i, job) =>
        let t := <[i := clearjob job]> (jobs s) in
        (1, Shell t (maxjid t + 1) (verbose s) (log s))
    | None => (0, s)
    end.

(** fgpid - Return PID of current foreground job, 0 if no such job *)
Definition fgpid (t : list job_t) : Z :=
  match first_slot (fun job => state job = FG) t with
  | Some (_, job) => pid job
  | None => 0
  end.

(** getjobpid  - Find a job (by PID) on the job list *)
Definition getjobpid (t : list job_t) (p : Z) : option nat :=
  if p <? 1 then None
  else fst <$> first_slot (fun job => pid job = p) t.

(** getjobjid  - Find a job (by JID) on the job list *)
Definition getjobjid (t : list job_t) (j : Z) : option nat :=
  if j <? 1 then None
  else fst <$> first_slot (fun job => jid job = j) t.

(** pid2jid - Map process ID to job ID *)
Definition pid2jid (s : shell) (p : Z) : Z :=
  if p <? 1 then 0
  else
    match first_slot (fun job => pid job = p) (jobs s) with
    | Some (_, job) => jid job
    | None => 0
    end.

(** listjobs - Print the job list *)
Definition listjobs_line (i : nat) (job : job_t) : list effect :=
  if decide (pid job = 0) then []
  else
    [Print ("[" +:+ pretty (jid job) +:+ "] (" +:+ pretty (pid job) +:+ ") ");
     Print (if decide (state job = BG) then "Running "
            else if decide (state job = FG) then "Foreground "
            else if decide (state job = ST) then "Stopped "
            else "listjobs: Internal error: job[" +:+ pretty (Z.of_nat i)
                 +:+ "].state=" +:+ pretty (state job) +:+ " ");
     Print (cmdline job)].

Definition listjobs (s : shell) : shell :=
  Shell (jobs s) (nextjid s) (verbose s)
        (log s ++ concat (imap listjobs_line (jobs s))).

(** The job table as the program starts: a zeroed global array that [main]
    passes through [initjobs], and [nextjid = 1]. *)
Definition zeroed_jobs : list job_t :=
  replicate (Z.to_nat MAXJOBS) (Job 0 0 0 "").

Definition shell_init (v : bool) : shell := Shell (initjobs zeroed_jobs) 1 v [].

(** ** Vocabulary of the properties *)

(** A slot is in use when its pid is not 0. *)
Definition in_use (job : job_t) : Prop := pid job <> 0.

(** Some in-use slot carries the process id [p]. *)
Definition present (t : list job_t) (p : Z) : Prop :=
  exists i job, t !! i = Some job /\ in_use job /\ pid job = p.

(** No two in-use slots hold the same job id. *)
Definition distinct_jids (t : list job_t) : Prop :=
  forall i k a b,
    t !! i = Some a -> t !! k = Some b ->
    in_use a -> in_use b -> jid a = jid b -> i = k.

(** The counter is above every job id in use. *)
Definition above_jids (t : list job_t) (n : Z) : Prop :=
  forall i job, t !! i = Some job -> in_use job -> jid job < n.

(** At most one in-use slot is in the foreground state. *)
Definition one_fg (t : list job_t) : Prop :=
  forall i k a b,
    t !! i = Some a -> t !! k = Some b ->
    in_use a -> in_use b -> state a = FG -> state b = FG -> i = k.

(** The pid [p] is in the table and is the pid of the table's designated
    foreground job. *)
Definition is_fg (p : Z) (s : shell) : Prop :=
  present (jobs s) p /\ fgpid (jobs s) = p.

(** No slot at all is in the foreground state. *)
Definition no_fg (t : list job_t) : Prop :=
  Forall (fun job => state job <> FG) t.

(** The data-model invariant of a slot: pids are never negative, a free
    slot is cleared, and a slot in use has a positive job id. *)
Definition slot_ok (job : job_t) : Prop :=
  0 <= pid job /\
  (pid job = 0 -> jid job = 0 /\ state job = UNDEF /\ cmdline job = "") /\
  (pid job <> 0 -> 1 <= jid job).

Definition table_ok (t : list job_t) : Prop := Forall slot_ok t.

(** The largest job id among the slots in use, 0 when there is none. *)
Definition max_jid_in_use (t : list job_t) : Z :=
  foldr (fun job m => if decide (pid job = 0) then m else Z.max (jid job) m) 0 t.

(** ** parseline - Parse the command line and build the argv array *)

(** The loop that steps [buf] over a run of spaces. *)
Fixpoint skip_spaces (buf : string) : string :=
  match buf with
  | String c rest => if Ascii.eqb c " " then skip_spaces rest else buf
  | EmptyString => buf
  end.

(** [strchr(buf, c)]: the text before the first [c] and the text after it;
    [None] is the NULL result. *)
Fixpoint strchr (buf : string) (c : ascii) : option (string * string) :=
  match buf with
  | EmptyString => None
  | String a rest =>
      if Ascii.eqb a c then Some (EmptyString, rest)
      else
        match strchr rest c with
        | Some (before, after) => Some (String a before, after)
        | None => None
        end
  end.

(** The delimiter search that precedes the loop and ends each round of it:
    after the spaces are skipped, an argument that opens with a single quote
    runs to the next single quote, any other one to the next space. *)
Definition next_arg (buf : string) : option (string * string) :=
  match skip_spaces buf with
  | String "'" rest => strchr rest "'"
  | rest => strchr rest " "
  end.

(** The loop [while (delim)]: each round stores the argument that starts at
    [buf], ends it at [delim], moves [buf] past the delimiter and searches
    the next one.  Every round consumes the delimiter, so the length of the
    buffer bounds the number of rounds. *)
Fixpoint build_argv (rounds : nat) (buf : string) : list string :=
  match rounds with
  | O => []
  | S rounds =>
      match next_arg buf with
      | Some (arg, rest) => arg :: build_argv rounds rest
      | None => []
      end
  end.

(** [buf[strlen(buf)-1] = ' '] on a buffer that is not empty. *)
Fixpoint set_last_to_space (buf : string) : string :=
  match buf with
  | EmptyString => EmptyString
  | String c EmptyString => String " " EmptyString
  | String c rest => String c (set_last_to_space rest)
  end.

(** The arguments parseline has stored when its loop ends, before it looks
    for the ampersand. *)
Definition args_of (cmdline : string) : list string :=
  let buf := set_last_to_space cmdline in
  build_argv (String.length buf) buf.

Definition starts_with_amp (arg : string) : bool :=
  match arg with
  | String c _ => Ascii.eqb c "&"
  | EmptyString => false
  end.

(** parseline returns the flag and the argv it has built (the entries before
    the terminating NULL).  [None] stands for the two ways the C code leaves
    its buffers: an empty [cmdline] makes it write [array[-1]], and
    [MAXARGS] or more arguments make it write past [argv[MAXARGS-1]]. *)
Definition parseline (cmdline : string) : option (bool * list string) :=
  match cmdline with
  | EmptyString => None
  | _ =>
      let argv := args_of cmdline in
      if (MAXARGS <=? length argv)%nat then None
      else
        match last argv with
        | None => Some (true, [])                (* ignore blank line *)
        | Some arg =>
            if starts_with_amp arg then Some (true, removelast argv)
            else Some (false, argv)
        end
  end.

(** The words of a text: its maximal runs of characters other than the
    space.  This is the usual reading of an argument, written without
    reference to the loop of parseline; [word] is the run being read. *)
Fixpoint words_from (word : string) (text : string) : list string :=
  match text with
  | EmptyString => if decide (word = "") then [] else [word]
  | String c rest =>
      if Ascii.eqb c " "
      then (if decide (word = "") then words_from "" rest
            else word :: words_from "" rest)
      else words_from (word +:+ String c "") rest
  end.

Definition words (text : string) : list string := words_from "" text.

(** The text has no single quote. *)
Fixpoint quote_free (text : string) : bool :=
  match text with
  | EmptyString => true
  | String c rest => negb (Ascii.eqb c "'") && quote_free rest
  end.

(** The text has no space. *)
Fixpoint space_free (text : string) : bool :=
  match text with
  | EmptyString => true
  | String c rest => negb (Ascii.eqb c " ") && space_free rest
  end.

(** The text is made of spaces only. *)
Fixpoint blank (text : string) : bool :=
  match text with
  | EmptyString => true
  | String c rest => Ascii.eqb c " " && blank rest
  end.

(** ** Outcomes of the routines that may not return *)

Inductive outcome (A : Type) :=
  | Ret (a : A) (s : shell)               (* the routine returns [a] *)
  | Exit (code : Z) (s : shell)           (* exit(code) was called *)
  | Exec (argv : list string) (s : shell) (* execve replaced the image *)
  | Fault.                                (* NULL dereferenced, or a write out of bounds *)
Arguments Ret {A} a s.
Arguments Exit {A} code s.
Arguments Exec {A} argv s.
Arguments Fault {A}.

Definition bind {A B} (m : outcome A) (k : A -> shell -> outcome B) : outcome B :=
  match m with
  | Ret a s => k a s
  | Exit code s => Exit code s
  | Exec argv s => Exec argv s
  | Fault => Fault
  end.

(** What the program cannot know before it runs: the values its
    uninitialised locals hold, and what the system calls answer. *)
Record world := World {
  stack_pid : Z;      (* content of eval's local [pid] before it is assigned *)
  stack_jid : Z;      (* content of do_bgfg's local [jid] before sscanf *)
  fork_ret : Z;       (* what fork() returns *)
  execve_fails : bool;(* whether execve() returns *)
  kill_ret : Z;       (* what kill() returns *)
  strerror : string   (* strerror(errno) *)
}.

(** unix_error - unix-style error routine *)
Definition unix_error {A} (w : world) (msg : string) (s : shell) : outcome A :=
  Exit 1 (emit (msg +:+ ": " +:+ strerror w +:+ nl) s).

Definition kill (w : world) (target sig : Z) (s : shell) : Z * shell :=
  (kill_ret w, did (Killed target sig) s).

(** [job -> state = st] through the pointer [i]. *)
Definition set_state (i : nat) (st : Z) (s : shell) : shell :=
  set_jobs (alter (fun job => Job (pid job) (jid job) st (cmdline job)) i (jobs s)) s.

(** ** sscanf(argv[1], "%%%d", &jid) *)

Definition is_white (c : ascii) : bool :=
  let n := nat_of_ascii c in
  ((n =? 32) || ((9 <=? n) && (n <=? 13)))%nat.

Fixpoint skip_white (buf : string) : string :=
  match buf with
  | String c rest => if is_white c then skip_white rest else buf
  | EmptyString => buf
  end.

Definition digit_of (c : ascii) : option Z :=
  let n := Z.of_nat (nat_of_ascii c) in
  if (48 <=? n) && (n <=? 57) then Some (n - 48) else None.

Fixpoint scan_digits (buf : string) (acc : Z) : Z :=
  match buf with
  | String c rest =>
      match digit_of c with
      | Some d => scan_digits rest (10 * acc + d)
      | None => acc
      end
  | EmptyString => acc
  end.

(** The [%d] conversion: white space, an optional sign, at least one digit.
    (A number outside the range of [int] is given its mathematical value.) *)
Definition scan_int (buf : string) : option Z :=
  let buf := skip_white buf in
  let '(neg, buf) :=
    match buf with
    | String "-" rest => (true, rest)
    | String "+" rest => (false, rest)
    | _ => (false, buf)
    end in
  match buf with
  | String c _ =>
      match digit_of c with
      | Some _ => Some (if neg : bool then - scan_digits buf 0 else scan_digits buf 0)
      | None => None
      end
  | EmptyString => None
  end.

(** The whole format: a literal percent sign, before which white space is
    skipped as before [%d], then [%d].  [None]: nothing was converted and
    [jid] keeps what it held. *)
Definition sscanf_jid (arg : string) : option Z :=
  match skip_white arg with
  | String "%" rest => scan_int rest
  | _ => None
  end.

(** ** The evaluator *)

(** do_bgfg - Execute the builtin bg and fg commands.  The value returned is
    the one stored through the [pid] pointer. *)
Definition do_bgfg (w : world) (argv : list string) (s : shell) : outcome Z :=
  match argv !! 1%nat with
  | None => Fault                           (* sscanf reads argv[1] == NULL *)
  | Some arg =>
      let j := default (stack_jid w) (sscanf_jid arg) in
      match getjobjid (jobs s) j with
      | None => Fault                       (* job -> pid with job == NULL *)
      | Some i =>
          match jobs s !! i with
          | None => Fault
          | Some job =>
              let p := pid job in
              let '(r, s) := kill w p SIGCONT s in
              if r <? 0
              then unix_error w "Could not send continue signal process" s
              else if decide (argv !! 0%nat = Some "bg")
              then
                let s := set_state i BG s in
                Ret p (emit ("[" +:+ pretty j +:+ "] (" +:+ pretty p +:+ ") "
                             +:+ cmdline job) s)
              else Ret p (set_state i FG s)
          end
      end
  end.

(** builtin_cmd - If the user has typed a built-in command then execute it
    immediately.  Returned: the C return value, and what the caller's [pid]
    holds afterwards. *)
Definition builtin_cmd (w : world) (argv : list string) (s : shell)
    : outcome (Z * Z) :=
  match argv !! 0%nat with
  | None => Fault                                  (* strcmp(NULL, "quit") *)
  | Some name =>
      if decide (name = "quit") then Exit 0 s
      else if decide (name = "jobs") then Ret (1, stack_pid w) (listjobs s)
      else if decide (name = "fg" \/ name = "bg")
      then bind (do_bgfg w argv s) (fun p s => Ret (1, p) s)
      else Ret (0, stack_pid w) s
  end.

(** Fork - wrapper for fork function *)
Definition Fork (w : world) (s : shell) : outcome Z :=
  if fork_ret w <? 0 then unix_error w "Could not fork child process" s
  else Ret (fork_ret w) (did (Forked (fork_ret w)) s).

(** eval - Evaluate the command line that the user has just typed in.
    [Ret p s]: everything before the last statement has run and control is at
    the call [waitfg(p)], in state [s]. *)
Definition eval (w : world) (line : string) (s : shell) : outcome Z :=
  match parseline line with
  | None => Fault
  | Some (bg_flag, argv) =>
      bind (builtin_cmd w argv s) (fun r s =>
        if decide (r.1 <> 0) then Ret r.2 s
        else
          bind (Fork w s) (fun p s =>
            if (p =? 0) && negb (execve_fails w)
            then Exec argv s            (* the child runs the program *)
            else
              let '(_, s) := addjob p (if bg_flag : bool then BG else FG) line s in
              let s :=
                if bg_flag
                then emit ("[" +:+ pretty (pid2jid s p) +:+ "] (" +:+ pretty p
                           +:+ ") " +:+ line) s
                else s in
              Ret p s))
  end.

(** The test of waitfg's loop. *)
Definition waitfg_test (p : Z) (s : shell) : bool :=
  negb (pid2jid s p =? 0) && (p =? fgpid (jobs s)).

(** waitfg - Block until process pid is no longer the foreground process.
    The handlers change the table while the shell sleeps in [sigsuspend];
    [obs] lists the states the loop test meets, the one at entry first.
    [Some k]: the call returns after [k] calls of [sigsuspend]; [None]: it is
    still asleep when the observations end. *)
Fixpoint waitfg (p : Z) (obs : list shell) : option nat :=
  match obs with
  | [] => None
  | s :: later =>
      if waitfg_test p s then S <$> waitfg p later else Some 0%nat
  end.

(** ** Signal handlers *)

(** What [waitpid] reports about a child; the three macros [WIFEXITED],
    [WIFSIGNALED] and [WIFSTOPPED] exclude each other. *)
Inductive status :=
  | Exited (code : Z)
  | Signaled (sig : Z)
  | Stopped (sig : Z).

(** One round of the handler's loop, for the child [p] just reaped. *)
Definition reap (p : Z) (st : status) (s : shell) : shell :=
  let j := pid2jid s p in
  let s :=
    match st with
    | Signaled sig =>
        emit ("Job [" +:+ pretty j +:+ "] (" +:+ pretty p
              +:+ ") terminated by signal " +:+ pretty sig +:+ nl) s
    | Stopped sig =>
        emit ("Job [" +:+ pretty j +:+ "] (" +:+ pretty p
              +:+ ") stopped by signal " +:+ pretty sig +:+ nl) s
    | Exited _ => s
    end in
  match st with
  | Exited _ | Signaled _ => (deletejob p s).2
  | Stopped _ => s
  end.

(** sigchld_handler.  [reaped] lists what the successive calls of [waitpid]
    return; the loop runs as long as the pid returned is positive. *)
Fixpoint sigchld_handler (reaped : list (Z * status)) (s : shell) : shell :=
  match reaped with
  | [] => s
  | (p, st) :: later =>
      if 0 <? p then sigchld_handler later (reap p st s) else s
  end.

(** sigint_handler *)
Definition sigint_handler (w : world) (s : shell) : outcome unit :=
  let p := fgpid (jobs s) in
  if decide (p <> 0) then
    let '(r, s) := kill w (- p) SIGINT s in
    if r <? 0 then unix_error w "Problem sending signal" s else Ret tt s
  else Ret tt s.

(** sigtstp_handler *)
Definition sigtstp_handler (w : world) (s : shell) : outcome unit :=
  let p := fgpid (jobs s) in
  if decide (p <> 0) then
    let '(r, s) := kill w (- p) SIGTSTP s in
    if r <? 0 then unix_error w "Problem sending stop signal" s
    else
      match getjobpid (jobs s) p with
      | None => Fault                       (* job -> state with job == NULL *)
      | Some i => Ret tt (set_state i ST s)
      end
  else Ret tt s.

(** ** The running shell *)

(** Where the main program is: reading the next line, inside [waitfg], or
    gone (exited, replaced by execve, or crashed). *)
Inductive mode :=
  | Prompt
  | Waiting (p : Z)
  | Halted.

Record sys := Sys { sh : shell; md : mode }.

(** What can happen to the process.  A command line is consumed only at the
    prompt: [main] calls [eval] again only once [waitfg] has returned.
    Signals arrive at any time.  [Wake] is the loop of [waitfg] running its
    test, on entry or when [sigsuspend] returns. *)
Inductive event :=
  | Command (w : world) (line : string)
  | Sigchld (reaped : list (Z * status))
  | Sigint (w : world)
  | Sigtstp (w : world)
  | Wake.

Definition after {A} (m : outcome A) (next : A -> mode) (old : sys) : sys :=
  match m with
  | Ret a s => Sys s (next a)
  | Exit _ s => Sys s Halted
  | Exec _ s => Sys s Halted
  | Fault => Sys (sh old) Halted
  end.

Definition step (x : sys) (e : event) : sys :=
  match md x, e with
  | Halted, _ => x
  | Prompt, Command w line => after (eval w line (sh x)) Waiting x
  | Waiting _, Command _ _ => x
  | _, Sigchld reaped => Sys (sigchld_handler reaped (sh x)) (md x)
  | _, Sigint w => after (sigint_handler w (sh x)) (fun _ => md x) x
  | _, Sigtstp w => after (sigtstp_handler w (sh x)) (fun _ => md x) x
  | Waiting p, Wake => if waitfg_test p (sh x) then x else Sys (sh x) Prompt
  | Prompt, Wake => x
  end.

Definition run (es : list event) (x : sys) : sys := foldl step x es.

Definition sys_init (v : bool) : sys := Sys (shell_init v) Prompt.



(** ** The invariant of the running shell *)

(** At most one slot, in use or not, is in the foreground state. *)
Definition one_fg_slot (t : list job_t) : Prop :=
  forall i k a b,
    t !! i = Some a -> t !! k = Some b ->
    state a = FG -> state b = FG -> i = k.

(** Every slot in the foreground state carries the pid [p]. *)
Definition fg_slots_of (t : list job_t) (p : Z) : Prop :=
  forall i job, t !! i = Some job -> state job = FG -> pid job = p.

(** The foreground slots of [t'] were already foreground slots of [t], with
    the same pid. *)
Definition fg_shrinks (t t' : list job_t) : Prop :=
  forall i job', t' !! i = Some job' -> state job' = FG ->
    exists job, t !! i = Some job /\ state job = FG /\ pid job = pid job'.

(** The table part of the invariant, for a state rather than a system. *)
Definition shell_ok (s : shell) : Prop :=
  table_ok (jobs s) /\ 1 <= nextjid s.

(** What a handler or a built-in leaves behind, whichever way it ends. *)
Definition outcome_keeps {A} (s : shell) (m : outcome A) : Prop :=
  match m with
  | Ret _ s' | Exit _ s' | Exec _ s' =>
      shell_ok s' /\ fg_shrinks (jobs s) (jobs s')
  | Fault => True
  end.

(** What [eval] leaves behind when it is called with no job in the
    foreground: if it reaches [waitfg(p)], a foreground job is the job of
    [p]. *)
Definition outcome_fg (m : outcome Z) : Prop :=
  match m with
  | Ret p s' => shell_ok s' /\ one_fg_slot (jobs s') /\ fg_slots_of (jobs s') p
  | Exit _ s' | Exec _ s' => shell_ok s' /\ one_fg_slot (jobs s')
  | Fault => True
  end.

(** At the prompt no job is in the foreground; inside [waitfg(p)] a
    foreground job, if there is one, is the job of [p]. *)
Definition mode_ok (t : list job_t) (m : mode) : Prop :=
  match m with
  | Prompt => no_fg t
  | Waiting p => fg_slots_of t p
  | Halted => True
  end.

Definition sys_ok (x : sys) : Prop :=
  table_ok (jobs (sh x)) /\ 1 <= nextjid (sh x) /\
  one_fg_slot (jobs (sh x)) /\ mode_ok (jobs (sh x)) (md x).

(** ** Sequences of addjob and deletejob *)

Inductive op :=
  | Add (p st : Z) (line : string)
  | Delete (p : Z).

Definition apply_op (s : shell) (o : op) : shell :=
  match o with
  | Add p st line => (addjob p st line s).2
  | Delete p => (deletejob p s).2
  end.

Definition apply_ops (os : list op) (s : shell) : shell := foldl apply_op s os.

(** Whether the counter is wrapped: an addjob has set it back to 1 and no
    deletejob has recomputed it since.  The flag is bookkeeping about a run,
    the program has no such variable. *)
Definition wrapped_next (s : shell) (wrapped : bool) (o : op) : bool :=
  match o with
  | Add p st line =>
      if (addjob p st line s).1 =? 0 then wrapped
      else wrapped || (MAXJOBS <? nextjid s + 1)
  | Delete p =>
      if (deletejob p s).1 =? 0 then wrapped else false
  end.

Fixpoint wrapped_after (os : list op) (s : shell) (wrapped : bool) : bool :=
  match os with
  | [] => wrapped
  | o :: later => wrapped_after later (apply_op s o) (wrapped_next s wrapped o)
  end.

(** No job is added while the counter is wrapped. *)
Fixpoint adds_unwrapped (os : list op) (s : shell) (wrapped : bool) : bool :=
  match os with
  | [] => true
  | o :: later =>
      match o with
      | Add p st line => negb (wrapped && negb ((addjob p st line s).1 =? 0))
      | Delete _ => true
      end
      && adds_unwrapped later (apply_op s o) (wrapped_next s wrapped o)
  end.

(** ** Sample runs *)

Definition line (text : string) : string := text +:+ nl.

(** Sixteen jobs, which fill the table and wrap the counter. *)
Definition sixteen_adds : list op :=
  (fun n => Add (Z.of_nat n) BG (line "sleep 100 &")) <$> seq 1 16.

(** A full table, two jobs reaped, two jobs started. *)
Definition refill : list op :=
  sixteen_adds ++ [Delete 2; Delete 3;
                   Add 17 BG (line "sleep 100 &"); Add 18 BG (line "sleep 100 &")].

(** One job, pid 5 and job id 1, in the background, in the foreground, and
    stopped. *)
Definition one_bg_job : shell :=
  apply_ops [Add 5 BG (line "sleep 100 &")] (shell_init false).

Definition one_fg_job : shell :=
  apply_ops [Add 5 FG (line "sleep 100")] (shell_init false).

Definition one_st_job : shell := set_state 0 ST one_fg_job.

Definition quiet_world : world := World 0 0 100 false 0 "".

(** A session: a background job is started and listed, brought to the
    foreground, and stopped from the keyboard. *)
Definition session : list event :=
  [Command quiet_world (line "sleep 5 &"); Wake;
   Command quiet_world (line "jobs"); Wake;
   Command quiet_world (line "fg %1"); Wake;
   Command quiet_world (line "jobs");
   Sigtstp quiet_world; Wake;
   Command quiet_world (line "jobs"); Wake].

(** ** Further vocabulary *)

(** No two slots in use carry the same process id. *)
Definition distinct_pids (t : list job_t) : Prop :=
  forall i k a b,
    t !! i = Some a -> t !! k = Some b ->
    in_use a -> in_use b -> pid a = pid b -> i = k.

(** The states a job can be in. *)
Definition valid_state (st : Z) : Prop := st = FG \/ st = BG \/ st = ST.

(** Every slot in use is in one of the three states of a job. *)
Definition states_ok (t : list job_t) : Prop :=
  Forall (fun job => in_use job -> valid_state (state job)) t.

(** The jobs of a table, in the order of the slots. *)
Definition jobs_in_use (t : list job_t) : list job_t :=
  filter (fun job => pid job <> 0) t.

(** The text that a piece of the log puts on standard output. *)
Fixpoint printed (l : list effect) : string :=
  match l with
  | [] => ""
  | Print text :: l => text +:+ printed l
  | _ :: l => printed l
  end.

(** The line of the [jobs] listing for a job in one of the three states. *)
Definition state_label (st : Z) : string :=
  if decide (st = BG) then "Running "
  else if decide (st = FG) then "Foreground "
  else "Stopped ".

Definition job_summary (job : job_t) : string :=
  "[" +:+ pretty (jid job) +:+ "] (" +:+ pretty (pid job) +:+ ") "
  +:+ state_label (state job) +:+ cmdline job.

Fixpoint join (texts : list string) : string :=
  match texts with
  | [] => ""
  | text :: texts => text +:+ join texts
  end.

(** The status reports a child that is gone, not one that is stopped. *)
Definition terminated (st : status) : Prop :=
  match st with
  | Stopped _ => False
  | _ => True
  end.

(** The name is not the name of a built-in command. *)
Definition external (name : string) : Prop :=
  name <> "quit" /\ name <> "jobs" /\ name <> "fg" /\ name <> "bg".

(** The number of slots and the states of the jobs, for a state of the shell
    and for what a routine leaves behind. *)
Definition shape_ok (s : shell) : Prop :=
  length (jobs s) = Z.to_nat MAXJOBS /\ states_ok (jobs s).

Definition outcome_shape_ok {A} (m : outcome A) : Prop :=
  match m with
  | Ret _ s' | Exit _ s' | Exec _ s' => shape_ok s'
  | Fault => True
  end.

(** The arguments that the loop of parseline stores from a buffer. *)
Definition argv_all (buf : string) : list string :=
  build_argv (String.length buf) buf.

(** The text is made of decimal digits only. *)
Fixpoint digits_only (text : string) : bool :=
  match text with
  | EmptyString => true
  | String c rest => bool_decide (is_Some (digit_of c)) && digits_only rest
  end.

(** Two jobs: pid 5 in the foreground and pid 6 in the background. *)
Definition two_jobs : shell :=
  apply_ops [Add 5 FG (line "sleep 100"); Add 6 BG (line "sleep 200 &")]
            (shell_init false).

(** What [eval] does once [builtin_cmd] has returned 0. *)
Definition spawn (w : world) (bg_flag : bool) (argv : list string)
    (text : string) (s : shell) : outcome Z :=
  if fork_ret w <? 0 then unix_error w "Could not fork child process" s
  else if (fork_ret w =? 0) && negb (execve_fails w)
  then Exec argv (did (Forked (fork_ret w)) s)
  else
    Ret (fork_ret w)
        (if bg_flag
         then emit ("[" +:+ pretty (pid2jid (addjob (fork_ret w) BG text
                                               (did (Forked (fork_ret w)) s)).2
                                            (fork_ret w))
                    +:+ "] (" +:+ pretty (fork_ret w) +:+ ") " +:+ text)
                   (addjob (fork_ret w) BG text (did (Forked (fork_ret w)) s)).2
         else (addjob (fork_ret w) FG text (did (Forked (fork_ret w)) s)).2).



(** Worlds in which fork fails, and in which the process is the child that
    fork has just created, with an execve that works and one that fails. *)
Definition fork_fails_world : world :=
  World 0 0 (-1) false 0 "Resource temporarily unavailable".

Definition child_world : world := World 0 0 0 false 0 "".

Definition child_no_program_world : world :=
  World 0 0 0 true 0 "No such file or directory".

(** ** The arguments of a line, read character by character *)

(** What the reader is in: the spaces between two arguments, an argument
    that runs to the next space, or an argument that opened with a single
    quote and runs to the next single quote. *)
Inductive reading :=
  | Between
  | Plain (word : string)
  | Quoted (word : string).

(** The arguments of a text, written without reference to the loop of
    parseline.  Spaces separate arguments.  An argument that opens with a
    single quote is the text up to the next single quote, spaces included;
    without a closing quote it is dropped with the rest of the text.  Any
    other argument is the text up to the next space (or the end); a quote
    inside it is a character like any other. *)
Fixpoint arguments_from (r : reading) (text : string) : list string :=
  match text with
  | EmptyString =>
      match r with
      | Plain word => [word]
      | Between | Quoted _ => []
      end
  | String c rest =>
      match r with
      | Between =>
          if Ascii.eqb c " " then arguments_from Between rest
          else if Ascii.eqb c "'" then arguments_from (Quoted "") rest
          else arguments_from (Plain (String c "")) rest
      | Plain word =>
          if Ascii.eqb c " " then word :: arguments_from Between rest
          else arguments_from (Plain (word +:+ String c "")) rest
      | Quoted word =>
          if Ascii.eqb c "'" then word :: arguments_from Between rest
          else arguments_from (Quoted (word +:+ String c "")) rest
      end
  end.

Definition arguments (text : string) : list string :=
  arguments_from Between text.

(** The tokens of a text when every white-space character delimits, and
    nothing else does: the reading of the line that takes tabs for
    delimiters and quotes for ordinary characters. *)
Fixpoint white_tokens_from (token : string) (text : string) : list string :=
  match text with
  | EmptyString => if decide (token = "") then [] else [token]
  | String c rest =>
      if is_white c
      then (if decide (token = "") then white_tokens_from "" rest
            else token :: white_tokens_from "" rest)
      else white_tokens_from (token +:+ String c "") rest
  end.

Definition white_tokens (text : string) : list string :=
  white_tokens_from "" text.

(** The answer of parseline under that reading: a background job when
    there is no token or when the last token begins with the ampersand,
    that token being left out. *)
Definition answer_by_white_tokens (text : string) : bool * list string :=
  match last (white_tokens text) with
  | None => (true, [])
  | Some token =>
      if starts_with_amp token then (true, removelast (white_tokens text))
      else (false, white_tokens text)
  end.

(** The horizontal tab. *)
Definition tab : string := String (ascii_of_nat 9) "".

(** ** waitfg at the grain of its statements *)

(** Some slot in use holds the pid [p] in the foreground state. *)
Definition in_foreground (t : list job_t) (p : Z) : Prop :=
  exists i job, t !! i = Some job /\ in_use job /\ pid job = p /\ state job = FG.

(** The signals the shell handles while it waits, with what the kernel
    hands to the handler. *)
Inductive signal :=
  | Chld (reaped : list (Z * status))
  | Int (w : world)
  | Tstp (w : world).

Definition handler (sg : signal) (s : shell) : outcome unit :=
  match sg with
  | Chld reaped => Ret tt (sigchld_handler reaped s)
  | Int w => sigint_handler w s
  | Tstp w => sigtstp_handler w s
  end.

(** Where waitfg is: about to evaluate the test of its loop, past a test
    that held and about to call sigsuspend, asleep inside sigsuspend,
    returned to eval, or gone with the process (a handler has called
    exit). *)
Inductive point :=
  | AtTest
  | AtCall
  | Asleep
  | Returned
  | Gone.

(** eval restores the signal mask before it calls waitfg and waitfg blocks
    no signal, so a handler can run at each of these points.  [Deliver]: a
    signal arrives and its handler runs to its end; [Proceed]: the main
    program runs up to its next point.  sigsuspend returns only after a
    handler that has run while the process was asleep. *)
Inductive tick :=
  | Deliver (sg : signal)
  | Proceed.

Definition waitfg_tick (p : Z) (c : shell * point) (t : tick) : shell * point :=
  match c.2, t with
  | (Returned | Gone), _ => c
  | pt, Deliver sg =>
      match handler sg c.1 with
      | Ret _ s => (s, match pt with Asleep => AtTest | _ => pt end)
      | Exit _ s | Exec _ s => (s, Gone)
      | Fault => (c.1, Gone)
      end
  | AtTest, Proceed => (c.1, if waitfg_test p c.1 then AtCall else Returned)
  | AtCall, Proceed => (c.1, Asleep)
  | Asleep, Proceed => c
  end.

Definition waitfg_run (p : Z) (c : shell * point) (ticks : list tick)
    : shell * point :=
  foldl (waitfg_tick p) c ticks.
(** * Properties *)

(** ** The loops over the table *)

Ltac table_ok_by_computation :=
  repeat (apply Forall_cons; split;
          [unfold slot_ok; simpl; intuition (try lia; try congruence)|]);
  constructor.

Section FirstSlot.
Context (P : job_t -> Prop) `{!forall j, Decision (P j)}.

Lemma first_slot_Some (t : list job_t) i job :
  first_slot P t = Some (i, job) <->
  t !! i = Some job /\ P job /\
  forall k other, t !! k = Some other -> (k < i)%nat -> ~ P other.
Proof. apply list_find_Some. Qed.

Lemma first_slot_None (t : list job_t) :
  first_slot P t = None <-> Forall (fun job => ~ P job) t.
Proof. apply list_find_None. Qed.

Lemma first_slot_exists (t : list job_t) k other :
  t !! k = Some other -> P other -> exists i job, first_slot P t = Some (i, job).
Proof.
  intros Hk HP.
  destruct (first_slot P t) as [[i job]|] eqn:E; [eauto|].
  apply first_slot_None in E.
  rewrite Forall_lookup in E. destruct (E k other Hk HP).
Qed.
End FirstSlot.

Lemma maxjid_from (t : list job_t) (m : Z) :
  0 <= m ->
  foldl (fun max job => if max <? jid job then jid job else max) m t
  = Z.max m (maxjid t).
Proof.
  unfold maxjid. revert m.
  induction t as [|job t IH]; intros m Hm; simpl.
  - lia.
  - rewrite (IH (if m <? jid job then _ else _)), (IH (if 0 <? jid job then _ else _));
      destruct (Z.ltb_spec m (jid job)), (Z.ltb_spec 0 (jid job)); lia.
Qed.

Lemma maxjid_cons (job : job_t) (t : list job_t) :
  maxjid (job :: t) = Z.max (Z.max 0 (jid job)) (maxjid t).
Proof.
  unfold maxjid at 1. simpl. rewrite maxjid_from;
    destruct (Z.ltb_spec 0 (jid job)); lia.
Qed.

Lemma maxjid_nonneg (t : list job_t) : 0 <= maxjid t.
Proof. destruct t; [done | rewrite maxjid_cons; lia]. Qed.

Lemma maxjid_upper (t : list job_t) i job :
  t !! i = Some job -> jid job <= maxjid t.
Proof.
  revert i. induction t as [|a t IH]; intros [|i] H; try done;
    rewrite maxjid_cons; simpl in H.
  - injection H as ->. lia.
  - specialize (IH _ H). lia.
Qed.

(** On a table that satisfies the data-model invariant, what [maxjid]
    computes over all the slots is the largest job id in use. *)
Lemma maxjid_in_use (t : list job_t) :
  table_ok t -> maxjid t = max_jid_in_use t.
Proof.
  induction 1 as [|job t (Hpid & Hfree & Hused) _ IH]; [done|].
  rewrite maxjid_cons, IH. simpl.
  destruct (decide (pid job = 0)) as [E|E].
  - destruct (Hfree E) as (-> & _). pose proof (maxjid_nonneg t). lia.
  - specialize (Hused E). pose proof (maxjid_nonneg t). lia.
Qed.

Lemma max_jid_in_use_upper (t : list job_t) i job :
  t !! i = Some job -> in_use job -> jid job <= max_jid_in_use t.
Proof.
  unfold in_use. revert i.
  induction t as [|a t IH]; intros [|i] H Hu; try done; simpl in *.
  - injection H as ->. destruct (decide _); [done | lia].
  - specialize (IH _ H Hu). destruct (decide _); lia.
Qed.

Lemma max_jid_in_use_attained (t : list job_t) :
  max_jid_in_use t = 0 \/
  exists i job, t !! i = Some job /\ in_use job /\ jid job = max_jid_in_use t.
Proof.
  induction t as [|a t IH]; [by left|]. simpl.
  destruct (decide (pid a = 0)) as [E|E].
  - destruct IH as [IH|(i & job & ? & ? & ?)]; [by left|].
    right. by exists (S i), job.
  - destruct (Z.max_spec (jid a) (max_jid_in_use t)) as [[_ ->]|[_ ->]].
    + destruct IH as [IH|(i & job & ? & ? & ?)]; [by left|].
      right. by exists (S i), job.
    + right. by exists 0%nat, a.
Qed.

Lemma max_jid_in_use_empty (t : list job_t) :
  Forall (fun job => pid job = 0) t -> max_jid_in_use t = 0.
Proof.
  induction 1 as [|a t E _ IH]; [done|]. simpl. by rewrite decide_True.
Qed.

(** ** What addjob and deletejob do to a table *)

Lemma addjob_fails (p st : Z) (line : string) (s : shell) :
  (addjob p st line s).1 = 0 ->
  (p <= 0 \/ Forall in_use (jobs s)) /\
  jobs (addjob p st line s).2 = jobs s /\
  nextjid (addjob p st line s).2 = nextjid s /\
  verbose (addjob p st line s).2 = verbose s.
Proof.
  unfold addjob. destruct (Z.ltb_spec p 1); simpl.
  - intros _. split; [left; lia | done].
  - destruct (first_slot _ _) as [[i free]|] eqn:E; simpl; [done|].
    intros _. split; [|done]. right. by apply first_slot_None in E.
Qed.

Lemma addjob_succeeds (p st : Z) (line : string) (s : shell) :
  (addjob p st line s).1 <> 0 ->
  (addjob p st line s).1 = 1 /\ 1 <= p /\
  exists i free,
    jobs s !! i = Some free /\ pid free = 0 /\
    (forall k job, (k < i)%nat -> jobs s !! k = Some job -> in_use job) /\
    jobs (addjob p st line s).2 = <[i := Job p (nextjid s) st line]> (jobs s) /\
    nextjid (addjob p st line s).2
      = (if MAXJOBS <? nextjid s + 1 then 1 else nextjid s + 1) /\
    verbose (addjob p st line s).2 = verbose s.
Proof.
  unfold addjob. destruct (Z.ltb_spec p 1); simpl; [done|].
  destruct (first_slot _ _) as [[i free]|] eqn:E; simpl; [|done].
  intros _. apply first_slot_Some in E as (Hi & Hfree & Hbefore).
  split; [done|]. split; [lia|]. exists i, free. repeat split; try done.
  intros k job Hk Hjob. exact (Hbefore k job Hjob Hk).
Qed.

Lemma deletejob_fails (p : Z) (s : shell) :
  (deletejob p s).1 = 0 ->
  deletejob p s = (0, s) /\
  (p <= 0 \/ Forall (fun job => pid job <> p) (jobs s)).
Proof.
  unfold deletejob. destruct (Z.ltb_spec p 1); simpl.
  - intros _. split; [done | left; lia].
  - destruct (first_slot _ _) as [[i job]|] eqn:E; simpl; [done|].
    intros _. split; [done|]. right. by apply first_slot_None in E.
Qed.

Lemma deletejob_succeeds (p : Z) (s : shell) :
  (deletejob p s).1 <> 0 ->
  1 <= p /\
  exists i job,
    jobs s !! i = Some job /\ pid job = p /\
    (forall k other, (k < i)%nat -> jobs s !! k = Some other -> pid other <> p) /\
    deletejob p s
      = (1, Shell (<[i := Job 0 0 UNDEF ""]> (jobs s))
                  (maxjid (<[i := Job 0 0 UNDEF ""]> (jobs s)) + 1)
                  (verbose s) (log s)).
Proof.
  unfold deletejob. destruct (Z.ltb_spec p 1); simpl; [done|].
  destruct (first_slot _ _) as [[i job]|] eqn:E; simpl; [|done].
  intros _. apply first_slot_Some in E as (Hi & Hp & Hbefore).
  split; [lia|]. exists i, job. repeat split; try done.
  intros k other Hk Hother. exact (Hbefore k other Hother Hk).
Qed.

Lemma return_value_cases (r : Z) : r = 0 \/ r <> 0.
Proof. lia. Qed.

(** ** The data-model invariant is kept *)

Lemma slot_ok_cleared : slot_ok (Job 0 0 UNDEF "").
Proof. repeat split; simpl; lia. Qed.

Lemma table_ok_insert (t : list job_t) i job :
  table_ok t -> slot_ok job -> table_ok (<[i := job]> t).
Proof. intros Ht Hj. by apply Forall_insert. Qed.

Lemma table_ok_init : table_ok (initjobs zeroed_jobs).
Proof.
  unfold table_ok, initjobs. rewrite Forall_fmap.
  apply Forall_forall. intros job _. exact slot_ok_cleared.
Qed.

Lemma addjob_ok (p st : Z) (line : string) (s : shell) :
  table_ok (jobs s) -> 1 <= nextjid s ->
  table_ok (jobs (addjob p st line s).2) /\ 1 <= nextjid (addjob p st line s).2.
Proof.
  intros Ht Hn.
  destruct (return_value_cases (addjob p st line s).1) as [E|E].
  - apply addjob_fails in E as (_ & -> & -> & _). done.
  - apply addjob_succeeds in E as (_ & Hp & i & free & _ & _ & _ & -> & -> & _).
    split.
    + apply table_ok_insert; [done|].
      unfold slot_ok; simpl. split; [lia | split; intros; lia].
    + destruct (MAXJOBS <? nextjid s + 1); lia.
Qed.

Lemma deletejob_ok (p : Z) (s : shell) :
  table_ok (jobs s) -> 1 <= nextjid s ->
  table_ok (jobs (deletejob p s).2) /\ 1 <= nextjid (deletejob p s).2.
Proof.
  intros Ht Hn.
  destruct (return_value_cases (deletejob p s).1) as [E|E].
  - apply deletejob_fails in E as (-> & _). done.
  - apply deletejob_succeeds in E as (_ & i & job & _ & _ & _ & ->). simpl.
    split.
    + apply table_ok_insert; [done | exact slot_ok_cleared].
    + pose proof (maxjid_nonneg (<[i := Job 0 0 UNDEF ""]> (jobs s))). lia.
Qed.

(** The operations keep the number of slots. *)
Lemma shell_init_length (v : bool) :
  length (jobs (shell_init v)) = Z.to_nat MAXJOBS.
Proof. reflexivity. Qed.

Lemma addjob_length (p st : Z) (line : string) (s : shell) :
  length (jobs (addjob p st line s).2) = length (jobs s).
Proof.
  destruct (return_value_cases (addjob p st line s).1) as [E|E].
  - by apply addjob_fails in E as (_ & -> & _).
  - apply addjob_succeeds in E as (_ & _ & i & free & _ & _ & _ & -> & _).
    apply length_insert.
Qed.

Lemma deletejob_length (p : Z) (s : shell) :
  length (jobs (deletejob p s).2) = length (jobs s).
Proof.
  destruct (return_value_cases (deletejob p s).1) as [E|E].
  - by apply deletejob_fails in E as (-> & _).
  - apply deletejob_succeeds in E as (_ & i & job & _ & _ & _ & ->).
    apply length_insert.
Qed.

(** ** addjob *)

(** C5.  In every state of the table, [addjob] returns false exactly when
    the pid is not positive or no slot is free, and then leaves every slot
    and the counter as they were; otherwise it returns true, takes the free
    slot of lowest index, stores the pid, the state and the command line
    there together with the current value of [nextjid] as job id, and
    advances [nextjid] by one, back to 1 when it would exceed [MAXJOBS]. *)
Theorem addjob_spec (p st : Z) (line : string) (s : shell) :
  ((addjob p st line s).1 = 0 <-> p <= 0 \/ Forall in_use (jobs s)) /\
  ((addjob p st line s).1 = 0 ->
     jobs (addjob p st line s).2 = jobs s /\
     nextjid (addjob p st line s).2 = nextjid s) /\
  ((addjob p st line s).1 <> 0 ->
     (addjob p st line s).1 = 1 /\
     exists i free,
       jobs s !! i = Some free /\ pid free = 0 /\
       (forall k job, (k < i)%nat -> jobs s !! k = Some job -> in_use job) /\
       jobs (addjob p st line s).2 = <[i := Job p (nextjid s) st line]> (jobs s) /\
       nextjid (addjob p st line s).2
         = (if MAXJOBS <? nextjid s + 1 then 1 else nextjid s + 1)).
Proof.
  split; [split|split].
  - intros E. by apply addjob_fails in E as (H & _).
  - intros H.
    destruct (return_value_cases (addjob p st line s).1) as [E|E]; [done|].
    apply addjob_succeeds in E as (_ & Hp & i & free & Hi & Hfree & _).
    destruct H as [H|H]; [lia|].
    rewrite Forall_lookup in H. destruct (H i free Hi Hfree).
  - intros E. by apply addjob_fails in E as (_ & ? & ? & _).
  - intros E. apply addjob_succeeds in E as (? & _ & i & free & ? & ? & ? & ? & ? & _).
    split; [done|]. by exists i, free.
Qed.

(** ** deletejob *)

Lemma present_positive (t : list job_t) (p : Z) :
  table_ok t -> present t p -> 1 <= p.
Proof.
  intros Ht (i & job & Hi & Hu & <-).
  unfold table_ok in Ht. rewrite Forall_lookup in Ht.
  destruct (Ht i job Hi) as (? & _). unfold in_use in Hu. lia.
Qed.

(** C6.  On a table that satisfies the data-model invariant, [deletejob]
    returns false and changes nothing when no slot in use has the pid, which
    is the case of every pid that is not positive; otherwise it returns
    true, resets the matching slot of lowest index to pid 0, jid 0, state
    UNDEF and an empty command line, leaves the other slots alone, and sets
    [nextjid] to one more than the largest job id still in use, hence to 1
    when the table has become empty. *)
Theorem deletejob_spec (p : Z) (s : shell) :
  table_ok (jobs s) ->
  (p <= 0 -> ~ present (jobs s) p) /\
  (~ present (jobs s) p -> deletejob p s = (0, s)) /\
  (present (jobs s) p ->
     exists i job,
       jobs s !! i = Some job /\ pid job = p /\
       (forall k other, (k < i)%nat -> jobs s !! k = Some other -> pid other <> p) /\
       (deletejob p s).1 = 1 /\
       jobs (deletejob p s).2 = <[i := Job 0 0 UNDEF ""]> (jobs s) /\
       nextjid (deletejob p s).2 = max_jid_in_use (jobs (deletejob p s).2) + 1 /\
       (Forall (fun job => pid job = 0) (jobs (deletejob p s).2) ->
          nextjid (deletejob p s).2 = 1)).
Proof.
  intros Ht. split; [|split].
  - intros Hp Hpres. apply (present_positive _ _ Ht) in Hpres. lia.
  - intros Hno.
    destruct (return_value_cases (deletejob p s).1) as [E|E].
    + by apply deletejob_fails in E as (? & _).
    + apply deletejob_succeeds in E as (Hp & i & job & Hi & Hpid & _).
      destruct Hno. exists i, job. unfold in_use. repeat split; [done | lia | done].
  - intros Hpres.
    destruct (return_value_cases (deletejob p s).1) as [E|E].
    + apply deletejob_fails in E as (_ & [Hp|Hall]).
      * apply (present_positive _ _ Ht) in Hpres. lia.
      * destruct Hpres as (i & job & Hi & _ & Hpid).
        rewrite Forall_lookup in Hall. destruct (Hall i job Hi Hpid).
    + apply deletejob_succeeds in E as (_ & i & job & Hi & Hpid & Hbefore & ->).
      exists i, job. simpl.
      assert (Hok : table_ok (<[i := Job 0 0 UNDEF ""]> (jobs s)))
        by (apply table_ok_insert; [done | exact slot_ok_cleared]).
      repeat split; try done.
      * by rewrite maxjid_in_use.
      * intros Hempty. by rewrite maxjid_in_use, max_jid_in_use_empty.
Qed.

Lemma deletejob_spec_witness :
  (5 <= 0 -> ~ present (jobs one_bg_job) 5) /\
  (~ present (jobs one_bg_job) 5 -> deletejob 5 one_bg_job = (0, one_bg_job)) /\
  (present (jobs one_bg_job) 5 ->
     exists i job,
       jobs one_bg_job !! i = Some job /\ pid job = 5 /\
       (forall k other, (k < i)%nat -> jobs one_bg_job !! k = Some other ->
          pid other <> 5) /\
       (deletejob 5 one_bg_job).1 = 1 /\
       jobs (deletejob 5 one_bg_job).2 = <[i := Job 0 0 UNDEF ""]> (jobs one_bg_job) /\
       nextjid (deletejob 5 one_bg_job).2
         = max_jid_in_use (jobs (deletejob 5 one_bg_job).2) + 1 /\
       (Forall (fun job => pid job = 0) (jobs (deletejob 5 one_bg_job).2) ->
          nextjid (deletejob 5 one_bg_job).2 = 1)).
Proof.
  apply (deletejob_spec 5 one_bg_job). vm_compute. table_ok_by_computation.
Defined.

Example deletejob_last_job :
  deletejob 5 one_bg_job = (1, shell_init false).
Proof. reflexivity. Qed.

(** ** Sequences of addjob and deletejob: job ids and the counter *)

Lemma apply_ops_cons (o : op) (os : list op) (s : shell) :
  apply_ops (o :: os) s = apply_ops os (apply_op s o).
Proof. reflexivity. Qed.

Lemma apply_op_next (s : shell) (o : op) :
  1 <= nextjid s -> 1 <= nextjid (apply_op s o).
Proof.
  intros Hn. destruct o as [p st text|p]; simpl.
  - destruct (return_value_cases (addjob p st text s).1) as [E|E].
    + apply addjob_fails in E as (_ & _ & -> & _). done.
    + apply addjob_succeeds in E as (_ & _ & i & free & _ & _ & _ & _ & -> & _).
      destruct (MAXJOBS <? nextjid s + 1); lia.
  - destruct (return_value_cases (deletejob p s).1) as [E|E].
    + apply deletejob_fails in E as (-> & _). done.
    + apply deletejob_succeeds in E as (_ & i & job & _ & _ & _ & ->). simpl.
      pose proof (maxjid_nonneg (<[i := Job 0 0 UNDEF ""]> (jobs s))). lia.
Qed.

Lemma above_jids_maxjid (t : list job_t) : above_jids t (maxjid t + 1).
Proof.
  intros i job Hi _. pose proof (maxjid_upper t i job Hi). lia.
Qed.

(** One operation keeps the counter above the ids in use, unless it is the
    addjob that wraps the counter. *)
Lemma above_jids_step (s : shell) (wrapped : bool) (o : op) :
  (wrapped = false -> above_jids (jobs s) (nextjid s)) ->
  wrapped_next s wrapped o = false ->
  above_jids (jobs (apply_op s o)) (nextjid (apply_op s o)).
Proof.
  intros Habove. destruct o as [p st text|p]; simpl.
  - destruct (return_value_cases (addjob p st text s).1) as [E|E].
    + rewrite E. simpl. intros ->.
      apply addjob_fails in E as (_ & -> & -> & _). auto.
    + destruct (Z.eqb_spec (addjob p st text s).1 0) as [|_]; [done|].
      intros [-> Hwrap]%orb_false_iff.
      apply addjob_succeeds in E as (_ & _ & i & free & _ & _ & _ & -> & -> & _).
      rewrite Hwrap. intros k job Hk Hu.
      apply list_lookup_insert_Some in Hk as [(_ & <- & _)|(_ & Hk)]; simpl.
      * lia.
      * specialize (Habove eq_refl k job Hk Hu). lia.
  - destruct (return_value_cases (deletejob p s).1) as [E|E].
    + rewrite E. simpl. intros ->.
      apply deletejob_fails in E as (-> & _). auto.
    + intros _.
      apply deletejob_succeeds in E as (_ & i & job & _ & _ & _ & ->). simpl.
      apply above_jids_maxjid.
Qed.

(** One operation keeps the ids in use distinct, unless it adds a job while
    the counter is wrapped. *)
Lemma distinct_jids_step (s : shell) (wrapped : bool) (o : op) :
  (wrapped = false -> above_jids (jobs s) (nextjid s)) ->
  distinct_jids (jobs s) ->
  match o with
  | Add p st text => negb (wrapped && negb ((addjob p st text s).1 =? 0))
  | Delete _ => true
  end = true ->
  distinct_jids (jobs (apply_op s o)).
Proof.
  intros Habove Hd. destruct o as [p st text|p]; simpl.
  - destruct (return_value_cases (addjob p st text s).1) as [E|E].
    + intros _. apply addjob_fails in E as (_ & -> & _). done.
    + destruct (Z.eqb_spec (addjob p st text s).1 0) as [|_]; [done|].
      rewrite andb_true_r, negb_true_iff. intros ->.
      specialize (Habove eq_refl).
      apply addjob_succeeds in E as (_ & _ & i & free & _ & _ & _ & -> & _).
      intros i1 i2 a b H1 H2 Ha Hb Hjid.
      apply list_lookup_insert_Some in H1 as [(<- & <- & _)|(N1 & H1)];
        apply list_lookup_insert_Some in H2 as [(E2 & <- & _)|(N2 & H2)];
        simpl in *.
      * done.
      * specialize (Habove i2 b H2 Hb). lia.
      * specialize (Habove i1 a H1 Ha). lia.
      * exact (Hd i1 i2 a b H1 H2 Ha Hb Hjid).
  - intros _. destruct (return_value_cases (deletejob p s).1) as [E|E].
    + apply deletejob_fails in E as (-> & _). done.
    + apply deletejob_succeeds in E as (_ & i & job & _ & _ & _ & ->). simpl.
      intros i1 i2 a b H1 H2 Ha Hb Hjid.
      apply list_lookup_insert_Some in H1 as [(_ & <- & _)|(_ & H1)]; [done|].
      apply list_lookup_insert_Some in H2 as [(_ & <- & _)|(_ & H2)]; [done|].
      exact (Hd i1 i2 a b H1 H2 Ha Hb Hjid).
Qed.

Lemma apply_ops_invariant (os : list op) :
  forall (s : shell) (wrapped : bool),
    (wrapped = false -> above_jids (jobs s) (nextjid s)) ->
    (wrapped_after os s wrapped = false ->
       above_jids (jobs (apply_ops os s)) (nextjid (apply_ops os s))) /\
    (distinct_jids (jobs s) -> adds_unwrapped os s wrapped = true ->
       distinct_jids (jobs (apply_ops os s))).
Proof.
  induction os as [|o os IH]; intros s wrapped Habove.
  - simpl. auto.
  - rewrite apply_ops_cons.
    pose proof (above_jids_step s wrapped o Habove) as Hstep.
    destruct (IH (apply_op s o) (wrapped_next s wrapped o) Hstep) as [IH1 IH2].
    split; [exact IH1|].
    intros Hd Hclean. simpl in Hclean.
    apply andb_true_iff in Hclean as [Hnow Hlater].
    apply IH2; [|exact Hlater].
    by apply (distinct_jids_step s wrapped o).
Qed.

Lemma shell_init_free (v : bool) i job :
  jobs (shell_init v) !! i = Some job -> job = Job 0 0 UNDEF "".
Proof.
  change (jobs (shell_init v)) with (clearjob <$> zeroed_jobs).
  intros Hi. by apply list_lookup_fmap_Some in Hi as (? & -> & _).
Qed.

Lemma shell_init_above (v : bool) :
  above_jids (jobs (shell_init v)) (nextjid (shell_init v)).
Proof.
  intros i job Hi Hu. apply shell_init_free in Hi as ->. by destruct Hu.
Qed.

Lemma shell_init_distinct (v : bool) : distinct_jids (jobs (shell_init v)).
Proof.
  intros i k a b Hi _ Hu. apply shell_init_free in Hi as ->. by destruct Hu.
Qed.

(** C1, as the code has it.  From the empty table with [nextjid = 1], a
    sequence of addjob and deletejob leaves no two slots in use with the same
    job id, provided no job is added while the counter is wrapped, that is
    between an addjob that set [nextjid] back to 1 and the next deletejob
    that removes a job. *)
Theorem distinct_jids_unless_wrapped (v : bool) (os : list op) :
  adds_unwrapped os (shell_init v) false = true ->
  distinct_jids (jobs (apply_ops os (shell_init v))).
Proof.
  intros Hclean.
  apply (apply_ops_invariant os (shell_init v) false); try done.
  - intros _. apply shell_init_above.
  - apply shell_init_distinct.
Qed.

Lemma distinct_jids_unless_wrapped_witness :
  distinct_jids (jobs (apply_ops (sixteen_adds ++ [Delete 16; Add 17 BG (line "ls")])
                                 (shell_init false))).
Proof.
  apply (distinct_jids_unless_wrapped false
           (sixteen_adds ++ [Delete 16; Add 17 BG (line "ls")])).
  vm_compute. reflexivity.
Defined.

(** C1, as the claim states it, fails: once the table has been full, two
    deletions followed by two insertions give the job id 1 to a second job
    while the first job still holds it. *)
Lemma duplicate_jid_after_refill :
  ~ distinct_jids (jobs (apply_ops refill (shell_init false))).
Proof.
  intros Hd.
  specialize (Hd 0%nat 2%nat
                 (Job 1 1 BG (line "sleep 100 &")) (Job 18 1 BG (line "sleep 100 &"))).
  discriminate Hd; vm_compute; congruence.
Qed.

(** C2, as the code has it.  From the empty table with [nextjid = 1], after
    every sequence of addjob and deletejob the counter is strictly greater
    than every job id in use, unless the counter is wrapped: an addjob has
    set it back to 1 and no deletejob has removed a job since. *)
Theorem nextjid_above_unless_wrapped (v : bool) (os : list op) :
  wrapped_after os (shell_init v) false = false ->
  above_jids (jobs (apply_ops os (shell_init v)))
             (nextjid (apply_ops os (shell_init v))).
Proof.
  intros Hfresh.
  apply (apply_ops_invariant os (shell_init v) false); try done.
  intros _. apply shell_init_above.
Qed.

Lemma nextjid_above_unless_wrapped_witness :
  above_jids (jobs (apply_ops (sixteen_adds ++ [Delete 5]) (shell_init true)))
             (nextjid (apply_ops (sixteen_adds ++ [Delete 5]) (shell_init true))).
Proof.
  apply (nextjid_above_unless_wrapped true (sixteen_adds ++ [Delete 5])).
  vm_compute. reflexivity.
Defined.

(** The exception is the exact one: while the counter is wrapped, it is not
    above the job ids in use. *)
Lemma wrapped_step (s : shell) (wrapped : bool) (o : op) :
  (wrapped = true ->
     nextjid s <= MAXJOBS /\
     exists i job, jobs s !! i = Some job /\ in_use job /\ MAXJOBS <= jid job) ->
  wrapped_next s wrapped o = true ->
  nextjid (apply_op s o) <= MAXJOBS /\
  exists i job,
    jobs (apply_op s o) !! i = Some job /\ in_use job /\ MAXJOBS <= jid job.
Proof.
  intros Hw. destruct o as [p st text|p]; simpl.
  - destruct (return_value_cases (addjob p st text s).1) as [E|E].
    + rewrite E. simpl. intros ->.
      apply addjob_fails in E as (_ & -> & -> & _). auto.
    + destruct (Z.eqb_spec (addjob p st text s).1 0) as [|_]; [done|].
      intros Hor.
      apply addjob_succeeds in E as (_ & Hp & i & free & Hi & Hfree & _ & -> & -> & _).
      split; [destruct (Z.ltb_spec MAXJOBS (nextjid s + 1)); unfold MAXJOBS in *; lia|].
      destruct wrapped.
      * destruct (Hw eq_refl) as (_ & k & job & Hk & Hu & Hjid).
        exists k, job. split; [|done].
        rewrite list_lookup_insert_ne; [done|].
        intros <-. unfold in_use in Hu. congruence.
      * simpl in Hor. apply Z.ltb_lt in Hor.
        exists i, (Job p (nextjid s) st text). split; [|split].
        -- apply list_lookup_insert_eq. by eapply lookup_lt_Some.
        -- unfold in_use. simpl. lia.
        -- simpl. lia.
  - destruct (return_value_cases (deletejob p s).1) as [E|E].
    + rewrite E. simpl. intros ->.
      apply deletejob_fails in E as (-> & _). auto.
    + by destruct (Z.eqb_spec (deletejob p s).1 0).
Qed.

Lemma wrapped_counter_not_above (v : bool) (os : list op) :
  wrapped_after os (shell_init v) false = true ->
  ~ above_jids (jobs (apply_ops os (shell_init v)))
               (nextjid (apply_ops os (shell_init v))).
Proof.
  assert (Hgen : forall (s : shell) (wrapped : bool),
    (wrapped = true ->
       nextjid s <= MAXJOBS /\
       exists i job, jobs s !! i = Some job /\ in_use job /\ MAXJOBS <= jid job) ->
    wrapped_after os s wrapped = true ->
    nextjid (apply_ops os s) <= MAXJOBS /\
    exists i job,
      jobs (apply_ops os s) !! i = Some job /\ in_use job /\ MAXJOBS <= jid job).
  { induction os as [|o os IH]; intros s wrapped Hw Hafter; [by apply Hw|].
    rewrite apply_ops_cons. simpl in Hafter.
    apply (IH (apply_op s o) (wrapped_next s wrapped o)); [|done].
    by apply wrapped_step. }
  intros Hafter Habove.
  destruct (Hgen (shell_init v) false) as (Hn & i & job & Hi & Hu & Hjid);
    [done | done |].
  specialize (Habove i job Hi Hu). lia.
Qed.

(** C2, as the claim states it, fails: the sixteenth addjob wraps the counter
    to 1 while the job ids 1 to 16 are in use. *)
Lemma nextjid_wraps_below_jids :
  ~ above_jids (jobs (apply_ops sixteen_adds (shell_init false)))
               (nextjid (apply_ops sixteen_adds (shell_init false))).
Proof.
  intros Ha.
  specialize (Ha 0%nat (Job 1 1 BG (line "sleep 100 &")) eq_refl).
  vm_compute in Ha. discriminate Ha. discriminate.
Qed.

(** ** waitfg *)

Lemma pid2jid_present (s : shell) (p : Z) :
  table_ok (jobs s) -> pid2jid s p <> 0 <-> present (jobs s) p.
Proof.
  intros Ht. unfold pid2jid. split.
  - destruct (Z.ltb_spec p 1); [done|].
    destruct (first_slot _ _) as [[i job]|] eqn:E; [|done].
    intros _. apply first_slot_Some in E as (Hi & Hp & _).
    exists i, job. unfold in_use. repeat split; [done | lia | done].
  - intros Hpres. pose proof (present_positive _ _ Ht Hpres).
    destruct (Z.ltb_spec p 1); [lia|].
    destruct Hpres as (k & other & Hk & _ & Hp).
    destruct (first_slot_exists (fun job => pid job = p) _ k other Hk Hp)
      as (i & job & E).
    rewrite E. apply first_slot_Some in E as (Hi & Hpid & _).
    unfold table_ok in Ht. rewrite Forall_lookup in Ht.
    destruct (Ht i job Hi) as (_ & _ & Hjid).
    assert (1 <= jid job) by (apply Hjid; lia). lia.
Qed.

Lemma waitfg_test_spec (p : Z) (s : shell) :
  table_ok (jobs s) -> waitfg_test p s = true <-> is_fg p s.
Proof.
  intros Ht. unfold waitfg_test, is_fg.
  rewrite andb_true_iff, negb_true_iff, Z.eqb_neq, Z.eqb_eq.
  rewrite (pid2jid_present s p Ht). intuition congruence.
Qed.

Lemma waitfg_test_false (p : Z) (s : shell) :
  table_ok (jobs s) -> waitfg_test p s = false <-> ~ is_fg p s.
Proof.
  intros Ht. rewrite <- (waitfg_test_spec p s Ht).
  destruct (waitfg_test p s); intuition congruence.
Qed.

(** waitfg over the tables that its loop test meets.  While these satisfy
    the data-model invariant: [waitfg(pid)] goes through exactly [k]
    suspensions and then returns if and only if at each of its first [k]
    tests the pid was present in the table and was the pid that fgpid
    returns, and at the next test it was not; and it never returns during
    the observations if and only if that held at every test. *)
Lemma waitfg_spec (p : Z) (obs : list shell) :
  Forall (fun s => table_ok (jobs s)) obs ->
  (forall k : nat,
     waitfg p obs = Some k <->
     (forall i s, (i < k)%nat -> obs !! i = Some s -> is_fg p s) /\
     (exists s, obs !! k = Some s /\ ~ is_fg p s)) /\
  (waitfg p obs = None <-> Forall (is_fg p) obs).
Proof.
  induction 1 as [|s later Hs Hlater [IHsome IHnone]]; simpl.
  - split.
    + intros k. split; [done | by intros (_ & ? & ? & _)].
    + done.
  - destruct (waitfg_test p s) eqn:Htest.
    + apply (waitfg_test_spec p s Hs) in Htest. split.
      * intros [|k].
        -- split; [by destruct (waitfg p later)|].
           intros (_ & s' & [= <-] & Hno). done.
        -- rewrite fmap_Some. split.
           ++ intros (k' & Hk' & [= <-]). apply IHsome in Hk' as (Hbefore & Hat).
              split; [|exact Hat].
              intros [|i] s' Hi Hs'; [by injection Hs' as <-|].
              apply (Hbefore i); [lia | done].
           ++ intros (Hbefore & Hat). exists k. split; [|done].
              apply IHsome. split; [|exact Hat].
              intros i s' Hi Hs'. apply (Hbefore (S i)); [lia | done].
      * rewrite fmap_None, IHnone, Forall_cons. tauto.
    + apply (waitfg_test_false p s Hs) in Htest. split.
      * intros k. split.
        -- intros [= <-]. split; [lia | by exists s].
        -- intros (Hbefore & Hat). destruct k as [|k]; [done|].
           destruct Htest. apply (Hbefore 0%nat); [lia | done].
      * split; [done|]. intros [? _]%Forall_cons. done.
Qed.

Lemma waitfg_spec_witness :
  (forall k : nat,
     waitfg 5 [one_fg_job; one_fg_job; one_st_job] = Some k <->
     (forall i s, (i < k)%nat ->
        [one_fg_job; one_fg_job; one_st_job] !! i = Some s -> is_fg 5 s) /\
     (exists s, [one_fg_job; one_fg_job; one_st_job] !! k = Some s /\ ~ is_fg 5 s)) /\
  (waitfg 5 [one_fg_job; one_fg_job; one_st_job] = None <->
     Forall (is_fg 5) [one_fg_job; one_fg_job; one_st_job]).
Proof.
  apply (waitfg_spec 5 [one_fg_job; one_fg_job; one_st_job]).
  repeat (apply Forall_cons; split; [vm_compute; table_ok_by_computation|]).
  constructor.
Defined.

Example waitfg_returns_on_stop :
  waitfg 5 [one_fg_job; one_fg_job; one_st_job] = Some 2%nat.
Proof. reflexivity. Qed.

(** ** The handlers *)

Lemma getjobpid_Some (t : list job_t) (p : Z) i job :
  getjobpid t p = Some i -> t !! i = Some job ->
  1 <= p /\ first_slot (fun job => pid job = p) t = Some (i, job).
Proof.
  unfold getjobpid. destruct (Z.ltb_spec p 1); [done|].
  destruct (first_slot _ _) as [[i' job']|] eqn:E; [|done]. simpl.
  intros [= ->] Hi. split; [done|].
  apply first_slot_Some in E as (Hi' & _). congruence.
Qed.

Lemma getjobpid_slot (t : list job_t) (p : Z) i :
  getjobpid t p = Some i -> exists job, t !! i = Some job /\ pid job = p /\ 1 <= p.
Proof.
  unfold getjobpid. destruct (Z.ltb_spec p 1); [done|].
  destruct (first_slot _ _) as [[i' job]|] eqn:E; [|done]. simpl.
  intros [= ->]. apply first_slot_Some in E as (Hi & Hp & _). by exists job.
Qed.

Lemma getjobjid_slot (t : list job_t) (j : Z) i :
  getjobjid t j = Some i -> exists job, t !! i = Some job /\ jid job = j /\ 1 <= j.
Proof.
  unfold getjobjid. destruct (Z.ltb_spec j 1); [done|].
  destruct (first_slot _ _) as [[i' job]|] eqn:E; [|done]. simpl.
  intros [= ->]. apply first_slot_Some in E as (Hi & Hj & _). by exists job.
Qed.

Lemma sigchld_handler_app (before later : list (Z * status)) (s : shell) :
  Forall (fun child => 0 < child.1) before ->
  sigchld_handler (before ++ later) s
  = sigchld_handler later (sigchld_handler before s).
Proof.
  intros Hpos. revert s.
  induction Hpos as [|[p st] before Hp _ IH]; intros s; simpl; [done|].
  simpl in Hp. destruct (Z.ltb_spec 0 p); [apply IH | lia].
Qed.

(** One round of sigchld_handler.  For a child that the handler reaps and
    whose pid is in the job table: when the child was stopped by a signal,
    the handler writes [Job [jid] (pid) stopped by signal N] and writes no
    field of the table; when the child exited, the handler clears the slot
    of the job; when the child was killed by a signal, the handler writes
    [Job [jid] (pid) terminated by signal N] and clears the slot of the
    job. *)
Lemma sigchld_handler_round
    (before later : list (Z * status)) (p : Z) (i : nat) (job : job_t) (s : shell) :
  Forall (fun child => 0 < child.1) before ->
  getjobpid (jobs (sigchld_handler before s)) p = Some i ->
  jobs (sigchld_handler before s) !! i = Some job ->
  (forall sig,
     sigchld_handler (before ++ (p, Stopped sig) :: later) s
     = sigchld_handler later
         (emit ("Job [" +:+ pretty (jid job) +:+ "] (" +:+ pretty p
                +:+ ") stopped by signal " +:+ pretty sig +:+ nl)
               (sigchld_handler before s))) /\
  (forall text, jobs (emit text (sigchld_handler before s)) !! i = Some job) /\
  (forall code,
     sigchld_handler (before ++ (p, Exited code) :: later) s
     = sigchld_handler later
         (Shell (<[i := Job 0 0 UNDEF ""]> (jobs (sigchld_handler before s)))
                (maxjid (<[i := Job 0 0 UNDEF ""]> (jobs (sigchld_handler before s))) + 1)
                (verbose (sigchld_handler before s))
                (log (sigchld_handler before s)))) /\
  (forall sig,
     sigchld_handler (before ++ (p, Signaled sig) :: later) s
     = sigchld_handler later
         (Shell (<[i := Job 0 0 UNDEF ""]> (jobs (sigchld_handler before s)))
                (maxjid (<[i := Job 0 0 UNDEF ""]> (jobs (sigchld_handler before s))) + 1)
                (verbose (sigchld_handler before s))
                (log (sigchld_handler before s)
                 ++ [Print ("Job [" +:+ pretty (jid job) +:+ "] (" +:+ pretty p
                            +:+ ") terminated by signal " +:+ pretty sig +:+ nl)]))).
Proof.
  intros Hpos Hget Hi.
  destruct (getjobpid_Some _ _ _ _ Hget Hi) as (Hp & Hfirst).
  set (s1 := sigchld_handler before s) in *.
  assert (Hjid : pid2jid s1 p = jid job).
  { unfold pid2jid. destruct (Z.ltb_spec p 1); [lia|]. by rewrite Hfirst. }
  assert (Hdel : forall l, deletejob p (Shell (jobs s1) (nextjid s1) (verbose s1) l)
                 = (1, Shell (<[i := Job 0 0 UNDEF ""]> (jobs s1))
                             (maxjid (<[i := Job 0 0 UNDEF ""]> (jobs s1)) + 1)
                             (verbose s1) l)).
  { intros l. unfold deletejob. destruct (Z.ltb_spec p 1); [lia|].
    simpl. by rewrite Hfirst. }
  assert (Hround : forall st, sigchld_handler (before ++ (p, st) :: later) s
                   = sigchld_handler later (reap p st s1)).
  { intros st. rewrite (sigchld_handler_app _ _ _ Hpos). simpl.
    destruct (Z.ltb_spec 0 p); [done | lia]. }
  repeat split.
  - intros sig. rewrite Hround. unfold reap. by rewrite Hjid.
  - intros text. exact Hi.
  - intros code. rewrite Hround. unfold reap.
    destruct s1 as [t n v l]. simpl in *. by rewrite (Hdel l).
  - intros sig. rewrite Hround. unfold reap, emit, did. by rewrite Hjid, Hdel.
Qed.

Lemma sigchld_handler_round_witness :
  (forall sig,
     sigchld_handler ([] ++ (5, Stopped sig) :: []) one_fg_job
     = sigchld_handler []
         (emit ("Job [" +:+ pretty 1 +:+ "] (" +:+ pretty 5
                +:+ ") stopped by signal " +:+ pretty sig +:+ nl)
               (sigchld_handler [] one_fg_job))) /\
  (forall text,
     jobs (emit text (sigchld_handler [] one_fg_job)) !! 0%nat
     = Some (Job 5 1 FG (line "sleep 100"))) /\
  (forall code,
     sigchld_handler ([] ++ (5, Exited code) :: []) one_fg_job
     = sigchld_handler []
         (Shell (<[0%nat := Job 0 0 UNDEF ""]> (jobs (sigchld_handler [] one_fg_job)))
                (maxjid (<[0%nat := Job 0 0 UNDEF ""]> (jobs (sigchld_handler [] one_fg_job))) + 1)
                (verbose (sigchld_handler [] one_fg_job))
                (log (sigchld_handler [] one_fg_job)))) /\
  (forall sig,
     sigchld_handler ([] ++ (5, Signaled sig) :: []) one_fg_job
     = sigchld_handler []
         (Shell (<[0%nat := Job 0 0 UNDEF ""]> (jobs (sigchld_handler [] one_fg_job)))
                (maxjid (<[0%nat := Job 0 0 UNDEF ""]> (jobs (sigchld_handler [] one_fg_job))) + 1)
                (verbose (sigchld_handler [] one_fg_job))
                (log (sigchld_handler [] one_fg_job)
                 ++ [Print ("Job [" +:+ pretty 1 +:+ "] (" +:+ pretty 5
                            +:+ ") terminated by signal " +:+ pretty sig +:+ nl)]))).
Proof.
  apply (sigchld_handler_round [] [] 5 0%nat (Job 5 1 FG (line "sleep 100")) one_fg_job).
  - constructor.
  - reflexivity.
  - reflexivity.
Defined.

(** C3.  The code at a stop that does not come from the keyboard: the job
    of pid 5 is stopped by signal 19, sent from outside the shell.
    sigchld_handler writes the line and writes no field of the table.  A
    foreground job stays in the foreground state, so that the test of
    waitfg still holds and the shell keeps waiting for a stopped job; a
    background job stays in the background state, and the listing shows it
    as running.  sigtstp_handler, on the same table, is the one that stores
    the stopped state. *)
Theorem sigchld_handler_stop_keeps_state :
  present (jobs one_fg_job) 5 /\
  log (sigchld_handler [(5, Stopped 19)] one_fg_job)
    = [Print (line "Job [1] (5) stopped by signal 19")] /\
  jobs (sigchld_handler [(5, Stopped 19)] one_fg_job) = jobs one_fg_job /\
  state <$> jobs (sigchld_handler [(5, Stopped 19)] one_fg_job) !! 0%nat
    = Some FG /\
  FG <> ST /\
  waitfg_test 5 (sigchld_handler [(5, Stopped 19)] one_fg_job) = true /\
  jobs (sigchld_handler [(5, Stopped 19)] one_bg_job) = jobs one_bg_job /\
  printed (log (listjobs (sigchld_handler [(5, Stopped 19)] one_bg_job)))
    = line "Job [1] (5) stopped by signal 19"
      +:+ line "[1] (5) Running sleep 100 &" /\
  (exists s',
     sigtstp_handler quiet_world one_fg_job = Ret tt s' /\
     state <$> jobs s' !! 0%nat = Some ST).
Proof.
  split; [exists 0%nat, (Job 5 1 FG (line "sleep 100")); by vm_compute|].
  do 7 (split; [by vm_compute|]).
  eexists. split; [reflexivity | by vm_compute].
Qed.

(** ** The built-in commands *)

Lemma do_bgfg_cases (w : world) (argv : list string) (s : shell) :
  do_bgfg w argv s = Fault \/
  exists arg i job,
    argv !! 1%nat = Some arg /\
    getjobjid (jobs s) (default (stack_jid w) (sscanf_jid arg)) = Some i /\
    jobs s !! i = Some job /\
    ((exists text,
        do_bgfg w argv s = Exit 1 (emit text (did (Killed (pid job) SIGCONT) s))) \/
     (argv !! 0%nat = Some "bg" /\
      exists text,
        do_bgfg w argv s
        = Ret (pid job) (emit text (set_state i BG (did (Killed (pid job) SIGCONT) s)))) \/
     (argv !! 0%nat <> Some "bg" /\
      do_bgfg w argv s
      = Ret (pid job) (set_state i FG (did (Killed (pid job) SIGCONT) s)))).
Proof.
  unfold do_bgfg.
  destruct (argv !! 1%nat) as [arg|]; [|by left].
  destruct (getjobjid _ _) as [i|] eqn:Hget; [|by left].
  destruct (jobs s !! i) as [job|] eqn:Hi; [|by left].
  right. exists arg, i, job. repeat split; try done.
  unfold kill. destruct (kill_ret w <? 0).
  - left. eexists. reflexivity.
  - right. destruct (decide (argv !! 0%nat = Some "bg")) as [E|E].
    + left. split; [done|]. eexists. reflexivity.
    + right. done.
Qed.

(** A jobspec that names no job makes do_bgfg dereference a NULL pointer. *)
Lemma do_bgfg_unresolved (w : world) (argv : list string) (s : shell) :
  (forall arg, argv !! 1%nat = Some arg ->
     getjobjid (jobs s) (default (stack_jid w) (sscanf_jid arg)) = None) ->
  do_bgfg w argv s = Fault.
Proof.
  intros Hnone. unfold do_bgfg.
  destruct (argv !! 1%nat) as [arg|]; [|done].
  by rewrite (Hnone arg eq_refl).
Qed.

(** C4.  The code at the input of the spec's scenario: [fg %1] with no job
    in the table.  getjobjid returns NULL, do_bgfg reads [job -> pid]
    through it, and the shell is gone; nothing has been printed. *)
Theorem fg_unknown_job_faults (w : world) (v : bool) :
  eval w (line "fg %1") (shell_init v) = Fault /\
  md (step (sys_init v) (Command w (line "fg %1"))) = Halted.
Proof. split; reflexivity. Qed.



Lemma builtin_cmd_bgfg (w : world) (argv : list string) (s : shell) name :
  argv !! 0%nat = Some name -> name = "fg" \/ name = "bg" ->
  builtin_cmd w argv s = bind (do_bgfg w argv s) (fun p s => Ret (1, p) s).
Proof.
  unfold builtin_cmd. intros -> Hname.
  destruct (decide (name = "quit")) as [->|_]; [by destruct Hname|].
  destruct (decide (name = "jobs")) as [->|_]; [by destruct Hname|].
  by rewrite decide_True.
Qed.





(** ** Foreground slots *)

Lemma no_fg_lookup (t : list job_t) :
  no_fg t <-> forall i job, t !! i = Some job -> state job <> FG.
Proof. unfold no_fg. by rewrite Forall_lookup. Qed.

Lemma no_fg_one_fg_slot (t : list job_t) : no_fg t -> one_fg_slot t.
Proof.
  rewrite no_fg_lookup. intros Hno i k a b Hi _ Ha. destruct (Hno i a Hi Ha).
Qed.

Lemma no_fg_fg_slots_of (t : list job_t) (p : Z) : no_fg t -> fg_slots_of t p.
Proof.
  rewrite no_fg_lookup. intros Hno i job Hi Hfg. destruct (Hno i job Hi Hfg).
Qed.

Lemma one_fg_slot_one_fg (t : list job_t) : one_fg_slot t -> one_fg t.
Proof. intros H i k a b Hi Hk _ _. by apply H. Qed.

Lemma fg_shrinks_refl (t : list job_t) : fg_shrinks t t.
Proof. intros i job Hi Hfg. by exists job. Qed.

Lemma fg_shrinks_trans (t1 t2 t3 : list job_t) :
  fg_shrinks t1 t2 -> fg_shrinks t2 t3 -> fg_shrinks t1 t3.
Proof.
  intros H12 H23 i job3 Hi Hfg.
  destruct (H23 i job3 Hi Hfg) as (job2 & Hi2 & Hfg2 & Hpid2).
  destruct (H12 i job2 Hi2 Hfg2) as (job1 & Hi1 & Hfg1 & Hpid1).
  exists job1. repeat split; [done | done | congruence].
Qed.

Lemma fg_shrinks_no_fg (t t' : list job_t) :
  fg_shrinks t t' -> no_fg t -> no_fg t'.
Proof.
  rewrite !no_fg_lookup. intros Hsh Hno i job' Hi Hfg.
  destruct (Hsh i job' Hi Hfg) as (job & Hj & Hjfg & _). exact (Hno i job Hj Hjfg).
Qed.

Lemma fg_shrinks_one_fg_slot (t t' : list job_t) :
  fg_shrinks t t' -> one_fg_slot t -> one_fg_slot t'.
Proof.
  intros Hsh Hone i k a b Hi Hk Ha Hb.
  destruct (Hsh i a Hi Ha) as (a0 & Hi0 & Ha0 & _).
  destruct (Hsh k b Hk Hb) as (b0 & Hk0 & Hb0 & _).
  exact (Hone i k a0 b0 Hi0 Hk0 Ha0 Hb0).
Qed.

Lemma fg_shrinks_fg_slots_of (t t' : list job_t) (p : Z) :
  fg_shrinks t t' -> fg_slots_of t p -> fg_slots_of t' p.
Proof.
  intros Hsh Hof i job' Hi Hfg.
  destruct (Hsh i job' Hi Hfg) as (job & Hj & Hjfg & <-). exact (Hof i job Hj Hjfg).
Qed.

Lemma fg_shrinks_mode_ok (t t' : list job_t) (m : mode) :
  fg_shrinks t t' -> mode_ok t m -> mode_ok t' m.
Proof.
  destruct m; simpl; [apply fg_shrinks_no_fg | apply fg_shrinks_fg_slots_of | done].
Qed.

(** Putting a slot that is not in the foreground state into the table. *)
Lemma fg_shrinks_insert (t : list job_t) i job :
  state job <> FG -> fg_shrinks t (<[i := job]> t).
Proof.
  intros Hst k job' Hk Hfg.
  apply list_lookup_insert_Some in Hk as [(_ & <- & _)|(_ & Hk)]; [done|].
  by exists job'.
Qed.

(** Putting any slot into a table without a foreground job. *)
Lemma no_fg_insert (t : list job_t) i job :
  no_fg t ->
  one_fg_slot (<[i := job]> t) /\ fg_slots_of (<[i := job]> t) (pid job).
Proof.
  rewrite no_fg_lookup. intros Hno. split.
  - intros i1 i2 a b H1 H2 Ha Hb.
    apply list_lookup_insert_Some in H1 as [(<- & _ & _)|(_ & H1)];
      [|destruct (Hno i1 a H1 Ha)].
    apply list_lookup_insert_Some in H2 as [(<- & _ & _)|(_ & H2)];
      [done | destruct (Hno i2 b H2 Hb)].
  - intros k job' Hk Hfg.
    apply list_lookup_insert_Some in Hk as [(_ & <- & _)|(_ & Hk)];
      [done | destruct (Hno k job' Hk Hfg)].
Qed.

Lemma set_state_insert (i : nat) (st : Z) (s : shell) job :
  jobs s !! i = Some job ->
  jobs (set_state i st s) = <[i := Job (pid job) (jid job) st (cmdline job)]> (jobs s).
Proof.
  intros Hi. unfold set_state, set_jobs. simpl.
  apply list_eq. intros k. destruct (decide (i = k)) as [<-|N].
  - rewrite list_lookup_alter_eq, Hi. simpl.
    symmetry. apply list_lookup_insert_eq. by eapply lookup_lt_Some.
  - by rewrite list_lookup_alter_ne, list_lookup_insert_ne.
Qed.

Lemma set_state_ok (i : nat) (st : Z) (s : shell) job :
  table_ok (jobs s) -> jobs s !! i = Some job -> in_use job ->
  table_ok (jobs (set_state i st s)).
Proof.
  intros Ht Hi Hu. rewrite (set_state_insert i st s job Hi).
  apply table_ok_insert; [done|].
  unfold table_ok in Ht. rewrite Forall_lookup in Ht.
  destruct (Ht i job Hi) as (Hpid & _ & Hjid).
  unfold slot_ok. simpl. split; [done | split; [done|exact Hjid]].
Qed.

Lemma no_fg_fgpid (t : list job_t) : no_fg t -> fgpid t = 0.
Proof.
  intros Hno. unfold fgpid.
  destruct (first_slot _ _) as [[i job]|] eqn:E; [|done].
  apply first_slot_Some in E as (Hi & Hfg & _).
  rewrite no_fg_lookup in Hno. destruct (Hno i job Hi Hfg).
Qed.

Lemma fg_slots_of_fgpid (t : list job_t) (p : Z) i job :
  fg_slots_of t p -> t !! i = Some job -> state job = FG -> fgpid t = p.
Proof.
  intros Hof Hi Hfg. unfold fgpid.
  destruct (first_slot_exists (fun job => state job = FG) t i job Hi Hfg)
    as (k & first & E).
  rewrite E. apply first_slot_Some in E as (Hk & Hkfg & _).
  exact (Hof k first Hk Hkfg).
Qed.

Lemma waitfg_test_no_fg (p : Z) (s : shell) :
  no_fg (jobs s) -> waitfg_test p s = false.
Proof.
  intros Hno. unfold waitfg_test. rewrite (no_fg_fgpid _ Hno).
  unfold pid2jid. destruct (Z.ltb_spec p 1); [done|].
  destruct (Z.eqb_spec p 0); [lia|]. apply andb_false_r.
Qed.

(** Inside [waitfg(p)] the loop goes on as long as some job is in the
    foreground. *)
Lemma waitfg_test_false_no_fg (p : Z) (s : shell) :
  table_ok (jobs s) -> fg_slots_of (jobs s) p ->
  waitfg_test p s = false -> no_fg (jobs s).
Proof.
  intros Ht Hof Htest. apply no_fg_lookup. intros i job Hi Hfg.
  apply (waitfg_test_false p s Ht) in Htest. apply Htest.
  pose proof (Hof i job Hi Hfg) as Hp.
  unfold table_ok in Ht. rewrite Forall_lookup in Ht.
  destruct (Ht i job Hi) as (_ & Hfree & _).
  assert (Hu : in_use job).
  { intros E. destruct (Hfree E) as (_ & Hst & _). rewrite Hst in Hfg. done. }
  split.
  - by exists i, job.
  - by apply (fg_slots_of_fgpid _ _ i job).
Qed.

(** ** Every step of the shell keeps the invariant *)

Lemma deletejob_fg_shrinks (p : Z) (s : shell) :
  fg_shrinks (jobs s) (jobs (deletejob p s).2).
Proof.
  destruct (return_value_cases (deletejob p s).1) as [E|E].
  - apply deletejob_fails in E as (-> & _). apply fg_shrinks_refl.
  - apply deletejob_succeeds in E as (_ & i & job & _ & _ & _ & ->). simpl.
    by apply fg_shrinks_insert.
Qed.

Lemma reap_keeps (p : Z) (st : status) (s : shell) :
  shell_ok s -> shell_ok (reap p st s) /\ fg_shrinks (jobs s) (jobs (reap p st s)).
Proof.
  intros [Ht Hn]. unfold reap.
  destruct st as [code|sig|sig].
  - split; [by apply deletejob_ok | apply deletejob_fg_shrinks].
  - split; [by apply deletejob_ok | apply (deletejob_fg_shrinks p (emit _ s))].
  - split; [done | apply fg_shrinks_refl].
Qed.

Lemma sigchld_handler_keeps (reaped : list (Z * status)) (s : shell) :
  shell_ok s ->
  shell_ok (sigchld_handler reaped s) /\
  fg_shrinks (jobs s) (jobs (sigchld_handler reaped s)).
Proof.
  revert s. induction reaped as [|[p st] later IH]; intros s Hs; simpl.
  - split; [done | apply fg_shrinks_refl].
  - destruct (0 <? p); [|split; [done | apply fg_shrinks_refl]].
    destruct (reap_keeps p st s Hs) as [Hs1 Hsh1].
    destruct (IH _ Hs1) as [Hs2 Hsh2].
    split; [done | by eapply fg_shrinks_trans].
Qed.

Lemma sigint_handler_keeps (w : world) (s : shell) :
  shell_ok s -> outcome_keeps s (sigint_handler w s).
Proof.
  intros Hs. unfold sigint_handler.
  destruct (decide _); [|by split; [|apply fg_shrinks_refl]].
  unfold kill. destruct (kill_ret w <? 0); simpl;
    (split; [done | apply fg_shrinks_refl]).
Qed.

Lemma sigtstp_handler_keeps (w : world) (s : shell) :
  shell_ok s -> outcome_keeps s (sigtstp_handler w s).
Proof.
  intros [Ht Hn]. unfold sigtstp_handler.
  destruct (decide _); [|by split; [|apply fg_shrinks_refl]].
  unfold kill. destruct (kill_ret w <? 0);
    [by split; [|apply fg_shrinks_refl]|].
  change (jobs (did (Killed (- fgpid (jobs s)) SIGTSTP) s)) with (jobs s).
  destruct (getjobpid _ _) as [i|] eqn:Hget; [|done].
  unfold outcome_keeps, shell_ok.
  destruct (getjobpid_slot _ _ _ Hget) as (job & Hi & Hpid & Hp).
  split; [split; [|done]|].
  - eapply set_state_ok; [done | exact Hi |]. unfold in_use. lia.
  - erewrite set_state_insert; [|exact Hi]. by apply fg_shrinks_insert.
Qed.

Lemma in_use_of_jid (t : list job_t) i job :
  table_ok t -> t !! i = Some job -> 1 <= jid job -> in_use job.
Proof.
  intros Ht Hi Hjid E. unfold table_ok in Ht. rewrite Forall_lookup in Ht.
  destruct (Ht i job Hi) as (_ & Hfree & _). destruct (Hfree E) as (? & _). lia.
Qed.

Lemma addjob_fg (p st : Z) (text : string) (s : shell) :
  no_fg (jobs s) ->
  one_fg_slot (jobs (addjob p st text s).2) /\
  fg_slots_of (jobs (addjob p st text s).2) p.
Proof.
  intros Hno.
  destruct (return_value_cases (addjob p st text s).1) as [E|E].
  - apply addjob_fails in E as (_ & -> & _).
    split; [by apply no_fg_one_fg_slot | by apply no_fg_fg_slots_of].
  - apply addjob_succeeds in E as (_ & _ & i & free & _ & _ & _ & -> & _).
    exact (no_fg_insert (jobs s) i (Job p (nextjid s) st text) Hno).
Qed.

Lemma set_state_fg (i : nat) (st : Z) (s : shell) job :
  no_fg (jobs s) -> jobs s !! i = Some job ->
  one_fg_slot (jobs (set_state i st s)) /\
  fg_slots_of (jobs (set_state i st s)) (pid job).
Proof.
  intros Hno Hi. rewrite (set_state_insert i st s job Hi).
  exact (no_fg_insert (jobs s) i (Job (pid job) (jid job) st (cmdline job)) Hno).
Qed.

Lemma do_bgfg_fg (w : world) (argv : list string) (s : shell) :
  shell_ok s -> no_fg (jobs s) -> outcome_fg (do_bgfg w argv s).
Proof.
  intros [Ht Hn] Hno.
  destruct (do_bgfg_cases w argv s)
    as [->|(arg & i & job & _ & Hget & Hi & Hcases)]; [done|].
  destruct (getjobjid_slot _ _ _ Hget) as (job' & Hi' & Hjid & Hj).
  assert (job' = job) as -> by congruence.
  assert (Hu : in_use job) by (apply (in_use_of_jid _ i job Ht Hi); lia).
  destruct Hcases as [(text & ->)|[(_ & text & ->)|(_ & ->)]]; simpl.
  - split; [done | by apply no_fg_one_fg_slot].
  - split; [split; [|done]|].
    + by apply (set_state_ok i BG (did (Killed (pid job) SIGCONT) s) job).
    + by apply (set_state_fg i BG (did (Killed (pid job) SIGCONT) s) job).
  - split; [split; [|done]|].
    + by apply (set_state_ok i FG (did (Killed (pid job) SIGCONT) s) job).
    + by apply (set_state_fg i FG (did (Killed (pid job) SIGCONT) s) job).
Qed.

Lemma eval_fg (w : world) (text : string) (s : shell) :
  shell_ok s -> no_fg (jobs s) -> outcome_fg (eval w text s).
Proof.
  intros Hs Hno. pose proof Hs as [Ht Hn]. unfold eval.
  destruct (parseline text) as [[bg_flag argv]|]; [|done].
  unfold builtin_cmd.
  destruct (argv !! 0%nat) as [name|]; [|done].
  destruct (decide (name = "quit")); [by split; [|apply no_fg_one_fg_slot]|].
  destruct (decide (name = "jobs")).
  { simpl. split; [done|].
    split; [by apply no_fg_one_fg_slot | by apply no_fg_fg_slots_of]. }
  destruct (decide (name = "fg" \/ name = "bg")).
  { pose proof (do_bgfg_fg w argv s Hs Hno) as Hbgfg.
    by destruct (do_bgfg w argv s). }
  simpl. unfold Fork.
  destruct (fork_ret w <? 0); [by split; [|apply no_fg_one_fg_slot]|]. simpl.
  destruct ((fork_ret w =? 0) && negb (execve_fails w));
    [by split; [|apply no_fg_one_fg_slot]|].
  set (s1 := did (Forked (fork_ret w)) s).
  pose proof (addjob_ok (fork_ret w) (if bg_flag then BG else FG) text s1 Ht Hn) as Hok.
  pose proof (addjob_fg (fork_ret w) (if bg_flag then BG else FG) text s1 Hno) as Hfg.
  destruct (addjob _ _ _ s1) as [r s2]. simpl in Hok, Hfg.
  by destruct bg_flag.
Qed.

Ltac split_sys_ok := unfold sys_ok; simpl; split; [|split; [|split]].

Lemma step_ok (x : sys) (e : event) : sys_ok x -> sys_ok (step x e).
Proof.
  intros (Ht & Hn & Hone & Hmode). destruct x as [s m]. simpl in *.
  assert (Hs : shell_ok s) by done.
  assert (Hsame : sys_ok (Sys s m)) by (split_sys_ok; assumption).
  assert (Hhalt : sys_ok (Sys s Halted)) by (split_sys_ok; first [assumption | exact I]).
  assert (Hkeep : forall (o : outcome unit),
            outcome_keeps s o -> sys_ok (after o (fun _ => m) (Sys s m))).
  { intros [[] s'|code s'|argv s'|]; simpl; [| | |done];
      intros ((Ht' & Hn') & Hsh); split_sys_ok; try assumption;
      try exact I;
      try (by apply (fg_shrinks_one_fg_slot (jobs s)));
      by apply (fg_shrinks_mode_ok (jobs s)). }
  assert (Hchld : forall reaped, sys_ok (Sys (sigchld_handler reaped s) m)).
  { intros reaped.
    destruct (sigchld_handler_keeps reaped s Hs) as ((Ht' & Hn') & Hsh).
    split_sys_ok; try assumption.
    - by apply (fg_shrinks_one_fg_slot (jobs s)).
    - by apply (fg_shrinks_mode_ok (jobs s)). }
  destruct m as [|p|], e as [w text|reaped|w|w|]; unfold step; simpl;
    try exact Hsame;
    try apply Hchld;
    try (apply Hkeep; by apply sigint_handler_keeps);
    try (apply Hkeep; by apply sigtstp_handler_keeps).
  - pose proof (eval_fg w text s Hs Hmode) as Hev.
    destruct (eval w text s) as [p s'|code s'|argv s'|]; simpl in *.
    + destruct Hev as ((? & ?) & ? & ?). split_sys_ok; assumption.
    + destruct Hev as ((? & ?) & ?). split_sys_ok; first [assumption | exact I].
    + destruct Hev as ((? & ?) & ?). split_sys_ok; first [assumption | exact I].
    + exact Hhalt.
  - destruct (waitfg_test p s) eqn:Htest; [exact Hsame|].
    split_sys_ok; try assumption.
    by apply (waitfg_test_false_no_fg p s).
Qed.

Lemma sys_init_ok (v : bool) : sys_ok (sys_init v).
Proof.
  assert (Hno : no_fg (jobs (shell_init v))).
  { apply no_fg_lookup. intros i job Hi. by apply shell_init_free in Hi as ->. }
  repeat split.
  - apply table_ok_init.
  - simpl. lia.
  - by apply no_fg_one_fg_slot.
  - exact Hno.
Qed.

Lemma run_ok (es : list event) (x : sys) : sys_ok x -> sys_ok (run es x).
Proof.
  revert x. induction es as [|e es IH]; intros x Hx; [done|].
  apply IH. by apply step_ok.
Qed.

(** Every state the shell reaches satisfies the data-model invariant, and
    whenever the shell is at the prompt no job is in the foreground. *)
Lemma reachable_table_ok (v : bool) (es : list event) :
  table_ok (jobs (sh (run es (sys_init v)))).
Proof. by destruct (run_ok es (sys_init v) (sys_init_ok v)) as (? & _). Qed.

Lemma prompt_no_fg (v : bool) (es : list event) :
  md (run es (sys_init v)) = Prompt ->
  no_fg (jobs (sh (run es (sys_init v)))).
Proof.
  destruct (run_ok es (sys_init v) (sys_init_ok v)) as (_ & _ & _ & Hmode).
  intros Hprompt. by rewrite Hprompt in Hmode.
Qed.

(** The session of the samples: the job is announced, listed as running,
    waited for after [fg] (the fourth command line is not read while the
    shell is inside waitfg), stopped by the keyboard signal, and listed as
    stopped. *)
Example session_trace :
  run session (sys_init false)
  = Sys (Shell (<[0%nat := Job 100 1 ST (line "sleep 5 &")]> (initjobs zeroed_jobs))
               2 false
               [Forked 100; Print (line "[1] (100) sleep 5 &");
                Print "[1] (100) "; Print "Running "; Print (line "sleep 5 &");
                Killed 100 SIGCONT;
                Killed (-100) SIGTSTP;
                Print "[1] (100) "; Print "Stopped "; Print (line "sleep 5 &")])
        Prompt.
Proof. reflexivity. Qed.

(** C8.  In every state that the running shell reaches from its start, by
    command lines evaluated at the prompt (registration of a spawned job,
    [fg] and [bg]), by the three signal handlers at any time, and by the loop
    of [waitfg], at most one slot in use is in the foreground state. *)
Theorem at_most_one_foreground (v : bool) (es : list event) :
  one_fg (jobs (sh (run es (sys_init v)))).
Proof.
  destruct (run_ok es (sys_init v) (sys_init_ok v)) as (_ & _ & Hone & _).
  by apply one_fg_slot_one_fg.
Qed.

(** ** eval on a built-in command *)



Lemma eval_bgfg (w : world) (text : string) (s : shell) bg_flag argv name :
  parseline text = Some (bg_flag, argv) -> argv !! 0%nat = Some name ->
  name = "fg" \/ name = "bg" ->
  eval w text s = do_bgfg w argv s.
Proof.
  intros Hparse Hname Hbgfg. unfold eval.
  rewrite Hparse, (builtin_cmd_bgfg w argv s name Hname Hbgfg).
  by destruct (do_bgfg w argv s).
Qed.







(** ** parseline *)

Lemma skip_spaces_length (buf : string) :
  (String.length (skip_spaces buf) <= String.length buf)%nat.
Proof.
  induction buf as [|c rest IH]; simpl; [lia|].
  destruct (Ascii.eqb c " "); simpl; lia.
Qed.

Lemma strchr_length (buf : string) (c : ascii) before rest :
  strchr buf c = Some (before, rest) ->
  (String.length rest < String.length buf)%nat.
Proof.
  revert before. induction buf as [|a buf IH]; intros before; simpl; [done|].
  destruct (Ascii.eqb a c).
  - intros [= _ <-]. lia.
  - destruct (strchr buf c) as [[b r]|] eqn:E; [|done].
    intros [= _ <-]. specialize (IH b eq_refl). lia.
Qed.

Lemma next_arg_length (buf : string) arg rest :
  next_arg buf = Some (arg, rest) ->
  (String.length rest < String.length buf)%nat.
Proof.
  unfold next_arg. pose proof (skip_spaces_length buf) as Hskip.
  destruct (skip_spaces buf) as [|c tail] eqn:E; [done|].
  destruct (Ascii.eqb_spec c "'") as [->|Hc].
  - intros H%strchr_length. simpl in Hskip. lia.
  - assert (Hsame : match String c tail with
                    | String "'" rest' => strchr rest' "'"
                    | other => strchr other " "
                    end = strchr (String c tail) " ").
    { destruct c as [[] [] [] [] [] [] [] []]; try done. }
    rewrite Hsame. intros H%strchr_length. lia.
Qed.

(** The loop of parseline ends before its bound of rounds is used up:
    more rounds than the length of the buffer change nothing. *)
Lemma build_argv_rounds (n : nat) (buf : string) :
  (String.length buf <= n)%nat ->
  build_argv n buf = build_argv (String.length buf) buf.
Proof.
  revert buf.
  induction (lt_wf n) as [n _ IH]. intros buf Hn.
  destruct n as [|n].
  - by replace (String.length buf) with 0%nat by lia.
  - simpl. destruct (String.length buf) as [|m] eqn:Hlen.
    + destruct buf; [done | simpl in Hlen; lia].
    + simpl. destruct (next_arg buf) as [[arg rest]|] eqn:E; [|done].
      apply next_arg_length in E. f_equal.
      rewrite (IH n) by lia. rewrite (IH m) by lia. done.
Qed.

Lemma set_last_to_space_line (body : string) :
  set_last_to_space (body +:+ nl) = body +:+ " ".
Proof.
  induction body as [|c body IH]; [done|].
  change (String c body +:+ nl) with (String c (body +:+ nl)).
  simpl. rewrite IH. by destruct (body +:+ nl) eqn:E; [destruct body|].
Qed.

Lemma starts_with_amp_spec (arg : string) :
  starts_with_amp arg = true <-> exists rest, arg = String "&" rest.
Proof.
  destruct arg as [|c rest]; simpl.
  - split; [done | by intros (? & ?)].
  - destruct (Ascii.eqb_spec c "&") as [->|Hc].
    + split; [intros _; by exists rest | done].
    + split; [done | intros (? & [= -> _]); done].
Qed.

Lemma line_not_empty (body : string) : body +:+ nl <> "".
Proof. by destruct body. Qed.

(** *** On a line without quotes the arguments are the words *)

Lemma append_cons (a : ascii) (word text : string) :
  String a word +:+ text = String a (word +:+ text).
Proof. reflexivity. Qed.

Lemma append_nil (text : string) : "" +:+ text = text.
Proof. reflexivity. Qed.

Lemma append_snoc (word : string) (c : ascii) (text : string) :
  (word +:+ String c "") +:+ text = word +:+ String c text.
Proof.
  induction word as [|a word IH]; [done|].
  by rewrite !append_cons, IH.
Qed.

Lemma append_length (a b : string) :
  String.length (a +:+ b) = (String.length a + String.length b)%nat.
Proof.
  induction a as [|c a IH]; [done|].
  rewrite append_cons. simpl. by rewrite IH.
Qed.

Lemma space_free_snoc (word : string) (c : ascii) :
  space_free word = true -> c <> " "%char ->
  space_free (word +:+ String c "") = true.
Proof.
  intros Hw Hc. induction word as [|a word IH].
  - rewrite append_nil. simpl. by destruct (Ascii.eqb_spec c " ").
  - rewrite append_cons. simpl in *.
    apply andb_true_iff in Hw as [-> Hw]. by rewrite IH.
Qed.

Lemma quote_free_snoc (word : string) (c : ascii) :
  quote_free word = true -> c <> "'"%char ->
  quote_free (word +:+ String c "") = true.
Proof.
  intros Hw Hc. induction word as [|a word IH].
  - rewrite append_nil. simpl. by destruct (Ascii.eqb_spec c "'").
  - rewrite append_cons. simpl in *.
    apply andb_true_iff in Hw as [-> Hw]. by rewrite IH.
Qed.

Lemma strchr_word (word rest : string) :
  space_free word = true ->
  strchr (word +:+ String " " rest) " " = Some (word, rest).
Proof.
  induction word as [|a word IH]; [done|].
  rewrite append_cons. simpl.
  intros [Ha Hw]%andb_true_iff. apply negb_true_iff in Ha.
  by rewrite Ha, IH.
Qed.

Lemma next_arg_unquoted (buf : string) (c : ascii) (tail : string) :
  skip_spaces buf = String c tail -> c <> "'"%char ->
  next_arg buf = strchr (String c tail) " ".
Proof.
  intros Hskip Hc. unfold next_arg. rewrite Hskip.
  destruct c as [[] [] [] [] [] [] [] []]; done.
Qed.

Lemma next_arg_word (word rest : string) :
  word <> "" -> space_free word = true -> quote_free word = true ->
  next_arg (word +:+ String " " rest) = Some (word, rest).
Proof.
  intros Hne Hs Hq. destruct word as [|c word]; [done|].
  pose proof Hs as Hs'. simpl in Hs, Hq.
  apply andb_true_iff in Hs as [Hc Hs]. apply negb_true_iff in Hc.
  apply andb_true_iff in Hq as [Hc' Hq]. apply negb_true_iff in Hc'.
  rewrite (next_arg_unquoted _ c (word +:+ String " " rest)).
  - rewrite <- append_cons. by apply strchr_word.
  - rewrite append_cons. simpl. by rewrite Hc.
  - by destruct (Ascii.eqb_spec c "'").
Qed.

Lemma build_argv_leading_space (n : nat) (buf : string) :
  build_argv n (String " " buf) = build_argv n buf.
Proof. by destruct n. Qed.

Lemma build_argv_words (text : string) :
  forall (word : string) (n : nat),
    quote_free text = true -> quote_free word = true -> space_free word = true ->
    (String.length (word +:+ text +:+ " ") <= n)%nat ->
    build_argv n (word +:+ text +:+ " ") = words_from word text.
Proof.
  induction text as [|c text IH]; intros word n Hqt Hqw Hsw Hn.
  - rewrite append_nil in *. simpl.
    destruct (decide (word = "")) as [->|Hne].
    + by destruct n as [|[|n]].
    + rewrite append_length in Hn. simpl in Hn.
      destruct n as [|n]; [lia|]. simpl.
      rewrite (next_arg_word word "" Hne Hsw Hqw). by destruct n.
  - simpl in Hqt. apply andb_true_iff in Hqt as [Hc Hqt].
    apply negb_true_iff in Hc.
    rewrite append_cons in *.
    rewrite append_length in Hn. simpl in Hn.
    simpl. destruct (Ascii.eqb_spec c " ") as [->|Hsp].
    + destruct (decide (word = "")) as [->|Hne].
      * rewrite append_nil, build_argv_leading_space.
        apply (IH "" n); try done. rewrite append_nil. lia.
      * destruct n as [|n]; [lia|]. simpl.
        rewrite (next_arg_word word _ Hne Hsw Hqw). f_equal.
        apply (IH "" n); try done. rewrite append_nil. lia.
    + rewrite <- append_snoc. apply IH; try done.
      * apply quote_free_snoc; [done|]. by destruct (Ascii.eqb_spec c "'").
      * by apply space_free_snoc.
      * rewrite !append_length in *. simpl in *. lia.
Qed.

(** On a line without single quotes, the arguments that parseline stores are
    the words of the line: its maximal runs of characters other than the
    space. *)
Lemma args_of_words (body : string) :
  quote_free body = true -> args_of (body +:+ nl) = words body.
Proof.
  intros Hq. unfold args_of, words. rewrite set_last_to_space_line.
  rewrite <- (append_nil (body +:+ " ")) at 2.
  by apply (build_argv_words body "" _ Hq).
Qed.

(** A line of spaces only holds no argument. *)
Lemma args_of_blank (body : string) :
  blank body = true -> args_of (body +:+ nl) = [].
Proof.
  intros Hb. rewrite args_of_words.
  - unfold words. induction body as [|c body IH]; [done|].
    simpl in *. apply andb_true_iff in Hb as [-> Hb]. by apply IH.
  - induction body as [|c body IH]; [done|].
    simpl in *. apply andb_true_iff in Hb as [Hc Hb].
    apply Ascii.eqb_eq in Hc as ->. by rewrite IH.
Qed.

Example parseline_amp_token :
  parseline (line "sleep 5 &x") = Some (true, ["sleep"; "5"]).
Proof. reflexivity. Qed.

Example parseline_blank : parseline (line "   ") = Some (true, []).
Proof. reflexivity. Qed.

Example parseline_quoted :
  parseline (line "echo 'a &b' c") = Some (false, ["echo"; "a &b"; "c"]).
Proof. reflexivity. Qed.

(** * Further properties of the code *)

(** ** Searching a table after an update *)

Section FirstSlotUpdate.
Context (P : job_t -> Prop) `{!forall j, Decision (P j)}.

(** Replacing a slot that fails the test by one that fails it too leaves
    the search as it was. *)
Lemma first_slot_insert_other (t : list job_t) i old new :
  t !! i = Some old -> ~ P old -> ~ P new ->
  first_slot P (<[i := new]> t) = first_slot P t.
Proof.
  intros Hi Hold Hnew.
  destruct (first_slot P t) as [[k job]|] eqn:E.
  - apply first_slot_Some in E as (Hk & HP & Hbefore).
    apply first_slot_Some. assert (i <> k) by (intros ->; congruence).
    split; [by rewrite list_lookup_insert_ne|]. split; [done|].
    intros m other Hm Hlt.
    apply list_lookup_insert_Some in Hm as [(_ & <- & _)|(_ & Hm)]; [done|].
    by apply (Hbefore m).
  - apply first_slot_None in E. apply first_slot_None.
    by apply Forall_insert.
Qed.

(** Putting a slot that passes the test where no other slot passes it makes
    it the slot found. *)
Lemma first_slot_insert_new (t : list job_t) i old new :
  t !! i = Some old -> P new ->
  (forall k job, t !! k = Some job -> k <> i -> ~ P job) ->
  first_slot P (<[i := new]> t) = Some (i, new).
Proof.
  intros Hi Hnew Hothers. apply first_slot_Some.
  split; [apply list_lookup_insert_eq; by eapply lookup_lt_Some|].
  split; [done|].
  intros k other Hk Hlt.
  apply list_lookup_insert_Some in Hk as [(-> & _)|(Hne & Hk)]; [lia|].
  apply (Hothers k other Hk). congruence.
Qed.
End FirstSlotUpdate.

Lemma lookup_initjobs (t : list job_t) i job :
  initjobs t !! i = Some job -> job = Job 0 0 UNDEF "".
Proof.
  unfold initjobs. intros Hi.
  by apply list_lookup_fmap_Some in Hi as (? & -> & _).
Qed.

Lemma concat_imap_nil {A} (f : nat -> job_t -> list A) (t : list job_t) :
  (forall i job, t !! i = Some job -> f i job = []) ->
  concat (imap f t) = [].
Proof.
  revert f. induction t as [|job t IH]; intros f Hf; [done|].
  simpl. rewrite (Hf 0%nat job eq_refl). simpl.
  apply IH. intros i other Hi. exact (Hf (S i) other Hi).
Qed.

(** X1.  A table that has gone through initjobs, whatever it held, has its
    slots all cleared: it keeps its number of slots and satisfies the
    data-model invariant, no pid and no job id is found in it, it has no
    foreground job, its largest job id is 0, and listing it writes
    nothing. *)
Theorem initjobs_empty (t : list job_t) (n : Z) (v : bool) (l : list effect) :
  length (initjobs t) = length t /\
  table_ok (initjobs t) /\
  (forall p, getjobpid (initjobs t) p = None /\
             pid2jid (Shell (initjobs t) n v l) p = 0 /\
             ~ present (initjobs t) p) /\
  (forall j, getjobjid (initjobs t) j = None) /\
  fgpid (initjobs t) = 0 /\
  maxjid (initjobs t) = 0 /\
  listjobs (Shell (initjobs t) n v l) = Shell (initjobs t) n v l.
Proof.
  assert (Hnone : forall (P : job_t -> Prop) `{!forall j, Decision (P j)},
            ~ P (Job 0 0 UNDEF "") -> first_slot P (initjobs t) = None).
  { intros P ? HP. apply first_slot_None, Forall_lookup.
    intros i job Hi. by apply lookup_initjobs in Hi as ->. }
  split; [apply length_fmap|].
  split.
  { apply Forall_lookup. intros i job Hi. apply lookup_initjobs in Hi as ->.
    exact slot_ok_cleared. }
  split.
  { intros p. unfold getjobpid, pid2jid. simpl.
    destruct (Z.ltb_spec p 1).
    - repeat split; try done.
      intros (i & job & Hi & Hu & _). apply lookup_initjobs in Hi as ->. by destruct Hu.
    - rewrite Hnone by (simpl; lia). repeat split; try done.
      intros (i & job & Hi & Hu & _). apply lookup_initjobs in Hi as ->. by destruct Hu. }
  split.
  { intros j. unfold getjobjid. destruct (Z.ltb_spec j 1); [done|].
    by rewrite Hnone by (simpl; lia). }
  split; [unfold fgpid; by rewrite Hnone|].
  split.
  { clear Hnone. unfold initjobs. induction t as [|job t IH]; [done|].
    rewrite fmap_cons, maxjid_cons, IH. simpl. lia. }
  unfold listjobs. simpl. rewrite concat_imap_nil, app_nil_r; [done|].
  intros i job Hi. by apply lookup_initjobs in Hi as ->.
Qed.

(** ** Insertion, deletion and lookup *)

Lemma absent_first_slot (t : list job_t) (p : Z) :
  1 <= p -> ~ present t p -> first_slot (fun job => pid job = p) t = None.
Proof.
  intros Hp Hno. apply first_slot_None, Forall_lookup. intros i job Hi Hpid.
  apply Hno. exists i, job. unfold in_use. repeat split; [done | lia | done].
Qed.

(** X2.  Insertion then lookup.  After addjob has added a job under a pid
    that was not in the table, pid2jid maps the pid to the job id that was
    allocated and getjobpid returns the slot of the new job; the lookups of
    every other pid are as before; and when the counter was above the ids in
    use, getjobjid resolves the new job id to the same slot. *)
Theorem addjob_then_lookup (p st : Z) (text : string) (s : shell) :
  (addjob p st text s).1 <> 0 ->
  ~ present (jobs s) p ->
  pid2jid (addjob p st text s).2 p = nextjid s /\
  (exists i,
     getjobpid (jobs (addjob p st text s).2) p = Some i /\
     jobs (addjob p st text s).2 !! i = Some (Job p (nextjid s) st text) /\
     (table_ok (jobs s) -> 1 <= nextjid s -> above_jids (jobs s) (nextjid s) ->
      getjobjid (jobs (addjob p st text s).2) (nextjid s) = Some i)) /\
  (forall q, q <> p ->
     pid2jid (addjob p st text s).2 q = pid2jid s q /\
     getjobpid (jobs (addjob p st text s).2) q = getjobpid (jobs s) q).
Proof.
  intros E Hfresh.
  apply addjob_succeeds in E as (_ & Hp & i & free & Hi & Hfree & _ & Hjobs & _).
  assert (Hfound : first_slot (fun job => pid job = p) (jobs (addjob p st text s).2)
                   = Some (i, Job p (nextjid s) st text)).
  { rewrite Hjobs. apply (first_slot_insert_new _ _ i free); [done | done |].
    intros k job Hk _ Hpid. apply Hfresh. exists k, job.
    unfold in_use. repeat split; [done | lia | done]. }
  split; [|split].
  - unfold pid2jid. destruct (Z.ltb_spec p 1); [lia|]. by rewrite Hfound.
  - exists i. split; [|split].
    + unfold getjobpid. destruct (Z.ltb_spec p 1); [lia|]. by rewrite Hfound.
    + rewrite Hjobs. apply list_lookup_insert_eq. by eapply lookup_lt_Some.
    + intros Ht Hn Habove. unfold getjobjid.
      destruct (Z.ltb_spec (nextjid s) 1); [lia|].
      rewrite Hjobs, (first_slot_insert_new _ _ i free); [done | done | done |].
      intros k job Hk _ Hjid. simpl in Hjid.
      destruct (decide (pid job = 0)) as [E|E].
      * unfold table_ok in Ht. rewrite Forall_lookup in Ht.
        destruct (Ht k job Hk) as (_ & Hcleared & _).
        destruct (Hcleared E) as (? & _). lia.
      * specialize (Habove k job Hk E). lia.
  - intros q Hq.
    assert (Hsame : 1 <= q ->
              first_slot (fun job => pid job = q) (jobs (addjob p st text s).2)
              = first_slot (fun job => pid job = q) (jobs s)).
    { intros H1. rewrite Hjobs.
      apply (first_slot_insert_other _ _ i free); [done | lia | simpl; congruence]. }
    unfold pid2jid, getjobpid.
    destruct (Z.ltb_spec q 1); [done|]. by rewrite Hsame.
Qed.

Lemma addjob_then_lookup_witness :
  pid2jid (addjob 7 BG (line "ls &") one_bg_job).2 7 = nextjid one_bg_job /\
  (exists i,
     getjobpid (jobs (addjob 7 BG (line "ls &") one_bg_job).2) 7 = Some i /\
     jobs (addjob 7 BG (line "ls &") one_bg_job).2 !! i
       = Some (Job 7 (nextjid one_bg_job) BG (line "ls &")) /\
     (table_ok (jobs one_bg_job) -> 1 <= nextjid one_bg_job ->
      above_jids (jobs one_bg_job) (nextjid one_bg_job) ->
      getjobjid (jobs (addjob 7 BG (line "ls &") one_bg_job).2) (nextjid one_bg_job)
        = Some i)) /\
  (forall q, q <> 7 ->
     pid2jid (addjob 7 BG (line "ls &") one_bg_job).2 q = pid2jid one_bg_job q /\
     getjobpid (jobs (addjob 7 BG (line "ls &") one_bg_job).2) q
       = getjobpid (jobs one_bg_job) q).
Proof.
  apply (addjob_then_lookup 7 BG (line "ls &") one_bg_job).
  - vm_compute. discriminate.
  - intros (i & job & Hi & Hu & Hpid).
    do 16 (destruct i as [|i]; [vm_compute in Hi; injection Hi as <-;
                                vm_compute in Hpid, Hu; first [discriminate | by destruct Hu]|]).
    vm_compute in Hi. discriminate.
Defined.

(** X3.  Deletion then lookup.  After deletejob has removed a job from a
    table in which no two jobs share a pid, the pid is no longer in the
    table, pid2jid maps it to 0, getjobpid finds nothing and a second
    deletejob fails; the lookups of every other pid are as before. *)
Theorem deletejob_then_lookup (p : Z) (s : shell) :
  (deletejob p s).1 <> 0 ->
  distinct_pids (jobs s) ->
  ~ present (jobs (deletejob p s).2) p /\
  pid2jid (deletejob p s).2 p = 0 /\
  getjobpid (jobs (deletejob p s).2) p = None /\
  (deletejob p (deletejob p s).2).1 = 0 /\
  (forall q, q <> p ->
     pid2jid (deletejob p s).2 q = pid2jid s q /\
     getjobpid (jobs (deletejob p s).2) q = getjobpid (jobs s) q).
Proof.
  intros E Hd.
  apply deletejob_succeeds in E as (Hp & i & job & Hi & Hpid & _ & Heq).
  rewrite Heq. simpl.
  assert (Hgone : ~ present (<[i := Job 0 0 UNDEF ""]> (jobs s)) p).
  { intros (k & other & Hk & Hu & Hother).
    apply list_lookup_insert_Some in Hk as [(_ & <- & _)|(Hne & Hk)]; [by destruct Hu|].
    apply Hne. apply (Hd i k job other); [done | done | | done | congruence].
    unfold in_use. lia. }
  pose proof (absent_first_slot _ p Hp Hgone) as Hnone.
  split; [done|].
  unfold pid2jid, getjobpid, deletejob. simpl.
  destruct (Z.ltb_spec p 1); [lia|]. rewrite Hnone.
  repeat split; try done.
  - destruct (Z.ltb_spec q 1); [done|].
    rewrite (first_slot_insert_other _ _ i job); [done | done | lia | simpl; lia].
  - destruct (Z.ltb_spec q 1); [done|].
    rewrite (first_slot_insert_other _ _ i job); [done | done | lia | simpl; lia].
Qed.

Lemma one_bg_job_slots i job :
  jobs one_bg_job !! i = Some job -> in_use job -> i = 0%nat.
Proof.
  intros Hi Hu.
  do 16 (destruct i as [|i]; [vm_compute in Hi; injection Hi as <-;
                              first [done | by destruct Hu]|]).
  vm_compute in Hi. discriminate.
Qed.

Lemma deletejob_then_lookup_witness :
  ~ present (jobs (deletejob 5 one_bg_job).2) 5 /\
  pid2jid (deletejob 5 one_bg_job).2 5 = 0 /\
  getjobpid (jobs (deletejob 5 one_bg_job).2) 5 = None /\
  (deletejob 5 (deletejob 5 one_bg_job).2).1 = 0 /\
  (forall q, q <> 5 ->
     pid2jid (deletejob 5 one_bg_job).2 q = pid2jid one_bg_job q /\
     getjobpid (jobs (deletejob 5 one_bg_job).2) q = getjobpid (jobs one_bg_job) q).
Proof.
  apply (deletejob_then_lookup 5 one_bg_job).
  - vm_compute. discriminate.
  - intros i k a b Hi Hk Ha Hb _.
    rewrite (one_bg_job_slots i a Hi Ha), (one_bg_job_slots k b Hk Hb). reflexivity.
Defined.

(** X4.  Insertion then deletion.  On a table that satisfies the data-model
    invariant, adding a job under a pid that is not in the table and
    deleting that pid gives back the table as it was, slot by slot; the
    counter is then one more than the largest job id in use. *)
Theorem addjob_then_deletejob (p st : Z) (text : string) (s : shell) :
  table_ok (jobs s) ->
  ~ present (jobs s) p ->
  (addjob p st text s).1 <> 0 ->
  (deletejob p (addjob p st text s).2).1 = 1 /\
  jobs (deletejob p (addjob p st text s).2).2 = jobs s /\
  nextjid (deletejob p (addjob p st text s).2).2 = max_jid_in_use (jobs s) + 1.
Proof.
  intros Ht Hfresh E.
  apply addjob_succeeds in E as (_ & Hp & i & free & Hi & Hfree & _ & Hjobs & _).
  assert (Hcleared : free = Job 0 0 UNDEF "").
  { unfold table_ok in Ht. rewrite Forall_lookup in Ht.
    destruct (Ht i free Hi) as (_ & Hc & _). destruct (Hc Hfree) as (? & ? & ?).
    destruct free. simpl in *. congruence. }
  assert (Hfound : first_slot (fun job => pid job = p) (jobs (addjob p st text s).2)
                   = Some (i, Job p (nextjid s) st text)).
  { rewrite Hjobs. apply (first_slot_insert_new _ _ i free); [done | done |].
    intros k job Hk _ Hpid. apply Hfresh. exists k, job.
    unfold in_use. repeat split; [done | lia | done]. }
  assert (Hback : <[i := clearjob (Job p (nextjid s) st text)]>
                    (jobs (addjob p st text s).2) = jobs s).
  { rewrite Hjobs, list_insert_insert_eq. apply list_insert_id. by rewrite Hi, Hcleared. }
  unfold deletejob. destruct (Z.ltb_spec p 1); [lia|].
  rewrite Hfound. cbv beta iota zeta. rewrite Hback. simpl.
  repeat split. by rewrite maxjid_in_use.
Qed.

Lemma addjob_then_deletejob_witness :
  (deletejob 7 (addjob 7 FG (line "ls") one_bg_job).2).1 = 1 /\
  jobs (deletejob 7 (addjob 7 FG (line "ls") one_bg_job).2).2 = jobs one_bg_job /\
  nextjid (deletejob 7 (addjob 7 FG (line "ls") one_bg_job).2).2
    = max_jid_in_use (jobs one_bg_job) + 1.
Proof.
  apply (addjob_then_deletejob 7 FG (line "ls") one_bg_job).
  - vm_compute. table_ok_by_computation.
  - intros (i & job & Hi & Hu & Hpid).
    rewrite (one_bg_job_slots i job Hi Hu) in Hi.
    vm_compute in Hi. injection Hi as <-. vm_compute in Hpid. discriminate.
  - vm_compute. discriminate.
Defined.

(** X5.  Deletion then insertion.  Right after a deletejob that removed a
    job, an addjob with a positive pid succeeds, and the job id it hands out
    is one that no slot in use holds: distinct job ids stay distinct,
    whatever happened to the counter before the deletion. *)
Theorem deletejob_then_addjob (p q st : Z) (text : string) (s : shell) :
  (deletejob p s).1 <> 0 ->
  1 <= q ->
  (addjob q st text (deletejob p s).2).1 = 1 /\
  above_jids (jobs (deletejob p s).2) (nextjid (deletejob p s).2) /\
  (distinct_jids (jobs (deletejob p s).2) ->
   distinct_jids (jobs (addjob q st text (deletejob p s).2).2)).
Proof.
  intros E Hq.
  assert (Habove : above_jids (jobs (deletejob p s).2) (nextjid (deletejob p s).2)).
  { apply deletejob_succeeds in E as (_ & i & job & _ & _ & _ & ->). simpl.
    apply above_jids_maxjid. }
  assert (Hadd : (addjob q st text (deletejob p s).2).1 <> 0).
  { intros Hfail. apply addjob_fails in Hfail as ([?|Hfull] & _); [lia|].
    apply deletejob_succeeds in E as (_ & i & job & Hi & _ & _ & Heq).
    rewrite Heq in Hfull. simpl in Hfull. rewrite Forall_lookup in Hfull.
    assert (Hc : <[i := Job 0 0 UNDEF ""]> (jobs s) !! i = Some (Job 0 0 UNDEF ""))
      by (apply list_lookup_insert_eq; by eapply lookup_lt_Some).
    by destruct (Hfull i _ Hc). }
  split; [by apply addjob_succeeds in Hadd as (? & _)|].
  split; [done|].
  intros Hd.
  apply (distinct_jids_step (deletejob p s).2 false (Add q st text)); [done | done |].
  reflexivity.
Qed.

Lemma deletejob_then_addjob_witness :
  (addjob 20 BG (line "ls &") (deletejob 3 (apply_ops sixteen_adds (shell_init false))).2).1 = 1 /\
  above_jids (jobs (deletejob 3 (apply_ops sixteen_adds (shell_init false))).2)
             (nextjid (deletejob 3 (apply_ops sixteen_adds (shell_init false))).2) /\
  (distinct_jids (jobs (deletejob 3 (apply_ops sixteen_adds (shell_init false))).2) ->
   distinct_jids
     (jobs (addjob 20 BG (line "ls &")
              (deletejob 3 (apply_ops sixteen_adds (shell_init false))).2).2)).
Proof.
  apply (deletejob_then_addjob 3 20 BG (line "ls &")
           (apply_ops sixteen_adds (shell_init false))).
  - vm_compute. discriminate.
  - lia.
Defined.

(** ** What the lookups find *)

(** X6.  On a table that satisfies the data-model invariant, getjobpid and
    getjobjid find exactly the jobs of the table: each returns a slot in use
    that carries the id asked for, and returns NULL exactly when no slot in
    use carries it.  A free slot is never returned. *)
Theorem lookups_find_jobs (t : list job_t) :
  table_ok t ->
  (forall p,
     (getjobpid t p = None <-> ~ present t p) /\
     (forall i, getjobpid t p = Some i ->
        exists job, t !! i = Some job /\ in_use job /\ pid job = p)) /\
  (forall j,
     (getjobjid t j = None <->
        ~ exists i job, t !! i = Some job /\ in_use job /\ jid job = j) /\
     (forall i, getjobjid t j = Some i ->
        exists job, t !! i = Some job /\ in_use job /\ jid job = j)).
Proof.
  intros Ht. split.
  - intros p. split.
    + split.
      * intros Hnone (i & job & Hi & Hu & Hpid).
        pose proof (present_positive t p Ht (ex_intro _ i (ex_intro _ job (conj Hi (conj Hu Hpid))))).
        unfold getjobpid in Hnone. destruct (Z.ltb_spec p 1); [lia|].
        destruct (first_slot_exists (fun job => pid job = p) t i job Hi Hpid)
          as (k & other & E).
        by rewrite E in Hnone.
      * intros Hno. destruct (getjobpid t p) as [i|] eqn:E; [|done].
        destruct (getjobpid_slot t p i E) as (job & Hi & Hpid & Hp).
        destruct Hno. exists i, job. unfold in_use. repeat split; [done | lia | done].
    + intros i E. destruct (getjobpid_slot t p i E) as (job & Hi & Hpid & Hp).
      exists job. unfold in_use. repeat split; [done | lia | done].
  - intros j.
    assert (Hsome : forall i, getjobjid t j = Some i ->
              exists job, t !! i = Some job /\ in_use job /\ jid job = j).
    { intros i E. destruct (getjobjid_slot t j i E) as (job & Hi & Hjid & Hj).
      exists job. repeat split; [done | | done].
      apply (in_use_of_jid t i job Ht Hi). lia. }
    split; [|exact Hsome]. split.
    + intros Hnone (i & job & Hi & Hu & Hjid).
      unfold table_ok in Ht. rewrite Forall_lookup in Ht.
      destruct (Ht i job Hi) as (_ & _ & Hpos). specialize (Hpos Hu).
      unfold getjobjid in Hnone. destruct (Z.ltb_spec j 1); [lia|].
      destruct (first_slot_exists (fun job => jid job = j) t i job Hi Hjid)
        as (k & other & E).
      by rewrite E in Hnone.
    + intros Hno. destruct (getjobjid t j) as [i|] eqn:E; [|done].
      destruct (Hsome i eq_refl) as (job & ? & ? & ?).
      destruct Hno. by exists i, job.
Qed.

Lemma one_bg_job_ok : table_ok (jobs one_bg_job).
Proof. vm_compute. table_ok_by_computation. Qed.

Lemma lookups_find_jobs_witness :
  (forall p,
     (getjobpid (jobs one_bg_job) p = None <-> ~ present (jobs one_bg_job) p) /\
     (forall i, getjobpid (jobs one_bg_job) p = Some i ->
        exists job, jobs one_bg_job !! i = Some job /\ in_use job /\ pid job = p)) /\
  (forall j,
     (getjobjid (jobs one_bg_job) j = None <->
        ~ exists i job, jobs one_bg_job !! i = Some job /\ in_use job /\ jid job = j) /\
     (forall i, getjobjid (jobs one_bg_job) j = Some i ->
        exists job, jobs one_bg_job !! i = Some job /\ in_use job /\ jid job = j)).
Proof.
  apply (lookups_find_jobs (jobs one_bg_job)). vm_compute. table_ok_by_computation.
Defined.

(** X7.  On a table that satisfies the data-model invariant, fgpid returns 0
    exactly when no slot is in the foreground state; when it returns a pid,
    that pid is the one of the foreground slot of lowest index, and that
    slot is in use. *)
Theorem fgpid_spec (t : list job_t) :
  table_ok t ->
  (fgpid t = 0 <-> no_fg t) /\
  (fgpid t <> 0 ->
     exists i job,
       t !! i = Some job /\ state job = FG /\ in_use job /\ pid job = fgpid t /\
       forall k other, (k < i)%nat -> t !! k = Some other -> state other <> FG).
Proof.
  intros Ht. unfold fgpid.
  destruct (first_slot (fun job => state job = FG) t) as [[i job]|] eqn:E.
  - apply first_slot_Some in E as (Hi & Hfg & Hbefore).
    assert (Hu : in_use job).
    { intros Hfree. unfold table_ok in Ht. rewrite Forall_lookup in Ht.
      destruct (Ht i job Hi) as (_ & Hc & _). destruct (Hc Hfree) as (_ & Hst & _).
      rewrite Hst in Hfg. done. }
    split.
    + split; [done|]. intros Hno. rewrite no_fg_lookup in Hno. by destruct (Hno i job Hi).
    + intros _. exists i, job. repeat split; try done.
      intros k other Hk Hother. exact (Hbefore k other Hother Hk).
  - apply first_slot_None in E. split; [|done]. split; [|done].
    intros _. exact E.
Qed.

Lemma fgpid_spec_witness :
  (fgpid (jobs one_fg_job) = 0 <-> no_fg (jobs one_fg_job)) /\
  (fgpid (jobs one_fg_job) <> 0 ->
     exists i job,
       jobs one_fg_job !! i = Some job /\ state job = FG /\ in_use job /\
       pid job = fgpid (jobs one_fg_job) /\
       forall k other, (k < i)%nat -> jobs one_fg_job !! k = Some other ->
         state other <> FG).
Proof.
  apply (fgpid_spec (jobs one_fg_job)). vm_compute. table_ok_by_computation.
Defined.

(** ** listjobs *)

Lemma append_assoc (a b c : string) : (a +:+ b) +:+ c = a +:+ b +:+ c.
Proof.
  induction a as [|x a IH]; [done|]. by rewrite !append_cons, IH.
Qed.

Lemma append_empty_r (a : string) : a +:+ "" = a.
Proof. induction a as [|x a IH]; [done|]. by rewrite append_cons, IH. Qed.

Lemma printed_app (l1 l2 : list effect) :
  printed (l1 ++ l2) = printed l1 +:+ printed l2.
Proof.
  induction l1 as [|[text|c|target sig] l1 IH]; simpl; try done.
  by rewrite IH, append_assoc.
Qed.

Lemma listjobs_line_summary (i : nat) (job : job_t) :
  in_use job -> valid_state (state job) ->
  printed (listjobs_line i job) = job_summary job /\
  length (listjobs_line i job) = 3%nat.
Proof.
  intros Hu Hst. unfold listjobs_line, job_summary, state_label.
  rewrite decide_False by exact Hu. simpl. rewrite append_empty_r.
  split; [|done].
  rewrite !append_assoc. do 4 f_equal.
  destruct (decide (state job = BG)); [done|].
  destruct (decide (state job = FG)); [done|].
  destruct (decide (state job = ST)); [done|].
  destruct Hst as [?|[?|?]]; done.
Qed.

Lemma listjobs_line_free (i : nat) (job : job_t) :
  pid job = 0 -> listjobs_line i job = [].
Proof. intros Hfree. unfold listjobs_line. by rewrite decide_True. Qed.

Lemma imap_summaries (f : nat -> job_t -> list effect) (t : list job_t) :
  (forall i job, pid job = 0 -> f i job = []) ->
  (forall i job, in_use job -> valid_state (state job) ->
     printed (f i job) = job_summary job /\ length (f i job) = 3%nat) ->
  states_ok t ->
  printed (concat (imap f t))
    = join (job_summary <$> jobs_in_use t) /\
  length (concat (imap f t))
    = (3 * length (jobs_in_use t))%nat.
Proof.
  unfold jobs_in_use. intros Hfree Hused Hst. revert f Hfree Hused.
  induction Hst as [|job t Hjob _ IH]; intros f Hfree Hused; [done|].
  simpl. rewrite printed_app, length_app.
  destruct (IH (f ∘ S)) as [IH1 IH2];
    [intros i other; apply Hfree | intros i other; apply Hused |].
  rewrite IH1, IH2.
  destruct (decide (pid job = 0)) as [E|E].
  - rewrite filter_cons_False by (intros H; by apply H).
    by rewrite (Hfree 0%nat job E).
  - rewrite filter_cons_True by done.
    destruct (Hused 0%nat job E (Hjob E)) as [-> ->]. simpl. split; [done | lia].
Qed.

(** X8.  On a table whose jobs are in the states FG, BG or ST, listjobs
    changes neither the table nor the counter; it writes, in the order of
    the slots and for the slots in use only, the line
    [[jid] (pid) State cmdline] of each job, where State is Running for BG,
    Foreground for FG and Stopped for ST, and nothing else. *)
Theorem listjobs_summaries (s : shell) :
  states_ok (jobs s) ->
  jobs (listjobs s) = jobs s /\
  nextjid (listjobs s) = nextjid s /\
  exists written,
    log (listjobs s) = log s ++ written /\
    printed written
      = join (job_summary <$> jobs_in_use (jobs s)) /\
    length written
      = (3 * length (jobs_in_use (jobs s)))%nat.
Proof.
  intros Hst. split; [done|]. split; [done|].
  exists (concat (imap listjobs_line (jobs s))). split; [done|].
  apply imap_summaries; [apply listjobs_line_free | apply listjobs_line_summary | done].
Qed.

Lemma listjobs_summaries_witness :
  jobs (listjobs one_st_job) = jobs one_st_job /\
  nextjid (listjobs one_st_job) = nextjid one_st_job /\
  exists written,
    log (listjobs one_st_job) = log one_st_job ++ written /\
    printed written
      = join (job_summary <$> jobs_in_use (jobs one_st_job)) /\
    length written
      = (3 * length (jobs_in_use (jobs one_st_job)))%nat.
Proof.
  apply (listjobs_summaries one_st_job).
  vm_compute.
  repeat (apply Forall_cons; split;
          [intros Hu; first [by destruct Hu | right; right; reflexivity]|]).
  constructor.
Defined.

Example listjobs_stopped_job :
  printed (log (listjobs one_st_job)) = line "[1] (5) Stopped sleep 100".
Proof. reflexivity. Qed.

(** ** The number of slots and the states of the jobs *)

Lemma valid_state_bg_fg (bg_flag : bool) : valid_state (if bg_flag then BG else FG).
Proof. destruct bg_flag; [right; left | left]; done. Qed.

Lemma addjob_shape (p st : Z) (text : string) (s : shell) :
  valid_state st -> shape_ok s -> shape_ok (addjob p st text s).2.
Proof.
  intros Hst [Hlen Hstates]. unfold shape_ok.
  rewrite addjob_length. split; [done|].
  destruct (return_value_cases (addjob p st text s).1) as [E|E].
  - by apply addjob_fails in E as (_ & -> & _).
  - apply addjob_succeeds in E as (_ & _ & i & free & _ & _ & _ & -> & _).
    by apply Forall_insert.
Qed.

Lemma deletejob_shape (p : Z) (s : shell) :
  shape_ok s -> shape_ok (deletejob p s).2.
Proof.
  intros [Hlen Hstates]. unfold shape_ok.
  rewrite deletejob_length. split; [done|].
  destruct (return_value_cases (deletejob p s).1) as [E|E].
  - by apply deletejob_fails in E as (-> & _).
  - apply deletejob_succeeds in E as (_ & i & job & _ & _ & _ & ->). simpl.
    apply Forall_insert; [done|]. intros Hu. by destruct Hu.
Qed.

Lemma set_state_shape (i : nat) (st : Z) (s : shell) :
  valid_state st -> shape_ok s -> shape_ok (set_state i st s).
Proof.
  intros Hst [Hlen Hstates]. unfold shape_ok, set_state, set_jobs. simpl.
  rewrite length_alter. split; [done|].
  apply Forall_alter; [done|]. intros job _ _ _. exact Hst.
Qed.

Lemma sigchld_handler_shape (reaped : list (Z * status)) (s : shell) :
  shape_ok s -> shape_ok (sigchld_handler reaped s).
Proof.
  revert s. induction reaped as [|[p st] later IH]; intros s Hs; simpl; [done|].
  destruct (0 <? p); [|done]. apply IH. unfold reap.
  destruct st as [code|sig|sig]; [by apply deletejob_shape | | done].
  by apply (deletejob_shape p (emit _ s)).
Qed.

Lemma sigint_handler_shape (w : world) (s : shell) :
  shape_ok s -> outcome_shape_ok (sigint_handler w s).
Proof.
  intros Hs. unfold sigint_handler. destruct (decide _); [|done].
  unfold kill. by destruct (kill_ret w <? 0).
Qed.

Lemma sigtstp_handler_shape (w : world) (s : shell) :
  shape_ok s -> outcome_shape_ok (sigtstp_handler w s).
Proof.
  intros Hs. unfold sigtstp_handler. destruct (decide _); [|done].
  unfold kill. destruct (kill_ret w <? 0); [done|].
  destruct (getjobpid _ _) as [i|]; [|done].
  apply set_state_shape; [right; right; done | done].
Qed.

Lemma do_bgfg_shape (w : world) (argv : list string) (s : shell) :
  shape_ok s -> outcome_shape_ok (do_bgfg w argv s).
Proof.
  intros Hs.
  destruct (do_bgfg_cases w argv s)
    as [->|(arg & i & job & _ & _ & _ & Hcases)]; [done|].
  destruct Hcases as [(text & ->)|[(_ & text & ->)|(_ & ->)]]; [done | |].
  - apply (set_state_shape i BG (did (Killed (pid job) SIGCONT) s));
      [right; left; done | done].
  - apply (set_state_shape i FG (did (Killed (pid job) SIGCONT) s));
      [left; done | done].
Qed.

Lemma eval_shape (w : world) (text : string) (s : shell) :
  shape_ok s -> outcome_shape_ok (eval w text s).
Proof.
  intros Hs. unfold eval.
  destruct (parseline text) as [[bg_flag argv]|]; [|done].
  unfold builtin_cmd.
  destruct (argv !! 0%nat) as [name|]; [|done].
  destruct (decide (name = "quit")); [done|].
  destruct (decide (name = "jobs")); [done|].
  destruct (decide (name = "fg" \/ name = "bg")).
  { pose proof (do_bgfg_shape w argv s Hs) as Hbgfg.
    by destruct (do_bgfg w argv s). }
  simpl. unfold Fork.
  destruct (fork_ret w <? 0); [done|]. simpl.
  destruct ((fork_ret w =? 0) && negb (execve_fails w)); [done|].
  pose proof (addjob_shape (fork_ret w) (if bg_flag then BG else FG) text
                (did (Forked (fork_ret w)) s) (valid_state_bg_fg bg_flag) Hs) as Hadd.
  destruct (addjob _ _ _ _) as [r s2]. simpl in Hadd.
  by destruct bg_flag.
Qed.

Lemma step_shape (x : sys) (e : event) : shape_ok (sh x) -> shape_ok (sh (step x e)).
Proof.
  intros Hs. destruct x as [s m]. simpl in Hs.
  assert (Hafter : forall A (o : outcome A) (next : A -> mode),
            outcome_shape_ok o -> shape_ok (sh (after o next (Sys s m)))).
  { intros A [a s'|code s'|argv s'|] next; simpl; done. }
  destruct m as [|p|], e as [w text|reaped|w|w|]; unfold step; simpl;
    try done;
    try (by apply sigchld_handler_shape);
    try (apply Hafter; by apply sigint_handler_shape);
    try (apply Hafter; by apply sigtstp_handler_shape).
  - apply Hafter. by apply eval_shape.
  - by destruct (waitfg_test p s).
Qed.

Lemma run_shape (es : list event) (x : sys) :
  shape_ok (sh x) -> shape_ok (sh (run es x)).
Proof.
  revert x. induction es as [|e es IH]; intros x Hx; [done|].
  apply IH. by apply step_shape.
Qed.

Lemma sys_init_shape (v : bool) : shape_ok (sh (sys_init v)).
Proof.
  split; [done|]. apply Forall_lookup. intros i job Hi Hu.
  apply shell_init_free in Hi as ->. by destruct Hu.
Qed.

(** X9.  Whatever command lines and signals the shell goes through from its
    start, its table keeps its [MAXJOBS] slots and the data-model invariant
    holds: pids are not negative, a free slot has jid 0, state UNDEF and an
    empty command line, a slot in use has a job id of at least 1 and is in
    state FG, BG or ST (so that listjobs never reports an internal error),
    the counter is at least 1, and at the prompt no job is in the
    foreground. *)
Theorem reachable_invariant (v : bool) (es : list event) :
  length (jobs (sh (run es (sys_init v)))) = Z.to_nat MAXJOBS /\
  table_ok (jobs (sh (run es (sys_init v)))) /\
  states_ok (jobs (sh (run es (sys_init v)))) /\
  1 <= nextjid (sh (run es (sys_init v))) /\
  (md (run es (sys_init v)) = Prompt -> no_fg (jobs (sh (run es (sys_init v))))).
Proof.
  destruct (run_ok es (sys_init v) (sys_init_ok v)) as (Ht & Hn & _ & Hmode).
  destruct (run_shape es (sys_init v) (sys_init_shape v)) as (Hlen & Hst).
  repeat split; try done.
  intros Hprompt. by rewrite Hprompt in Hmode.
Qed.

(** X10.  At the prompt the keyboard signals find no foreground job: in
    every state the shell reaches, if it is at the prompt then the handlers
    of SIGINT and of SIGTSTP send no signal and change nothing. *)
Theorem signals_at_prompt (v : bool) (es : list event) (w : world) :
  md (run es (sys_init v)) = Prompt ->
  step (run es (sys_init v)) (Sigint w) = run es (sys_init v) /\
  step (run es (sys_init v)) (Sigtstp w) = run es (sys_init v).
Proof.
  intros Hprompt.
  pose proof (prompt_no_fg v es Hprompt) as Hno.
  apply no_fg_fgpid in Hno.
  destruct (run es (sys_init v)) as [s m]. simpl in *. subst m.
  unfold step, sigint_handler, sigtstp_handler. simpl.
  rewrite Hno. by rewrite decide_False by lia.
Qed.

Lemma signals_at_prompt_witness :
  step (run session (sys_init false)) (Sigint quiet_world)
    = run session (sys_init false) /\
  step (run session (sys_init false)) (Sigtstp quiet_world)
    = run session (sys_init false).
Proof.
  apply (signals_at_prompt false session quiet_world). reflexivity.
Defined.

(** ** The handlers and the foreground job *)

Lemma fgpid_slot (t : list job_t) :
  table_ok t -> fgpid t <> 0 ->
  exists i job,
    t !! i = Some job /\ state job = FG /\ pid job = fgpid t /\ 1 <= pid job.
Proof.
  intros Ht Hfg. unfold fgpid in *.
  destruct (first_slot (fun job => state job = FG) t) as [[i job]|] eqn:E; [|done].
  apply first_slot_Some in E as (Hi & Hst & _).
  exists i, job. repeat split; try done.
  unfold table_ok in Ht. rewrite Forall_lookup in Ht.
  destruct (Ht i job Hi) as (? & _). lia.
Qed.

(** X11.  On a table that satisfies the data-model invariant,
    sigtstp_handler never goes through a NULL pointer: the job it looks up
    by the pid of the foreground job is always found. *)
Theorem sigtstp_handler_no_fault (w : world) (s : shell) :
  table_ok (jobs s) -> sigtstp_handler w s <> Fault.
Proof.
  intros Ht. unfold sigtstp_handler.
  destruct (decide (fgpid (jobs s) <> 0)) as [Hfg|]; [|done].
  unfold kill. destruct (kill_ret w <? 0); [done|].
  change (jobs (did (Killed (- fgpid (jobs s)) SIGTSTP) s)) with (jobs s).
  destruct (fgpid_slot (jobs s) Ht Hfg) as (i & job & Hi & _ & Hpid & Hp).
  unfold getjobpid. destruct (Z.ltb_spec (fgpid (jobs s)) 1); [lia|].
  destruct (first_slot_exists (fun job => pid job = fgpid (jobs s)) (jobs s) i job Hi Hpid)
    as (k & other & ->).
  done.
Qed.

Lemma sigtstp_handler_no_fault_witness :
  sigtstp_handler quiet_world one_fg_job <> Fault.
Proof.
  apply (sigtstp_handler_no_fault quiet_world one_fg_job).
  vm_compute. table_ok_by_computation.
Defined.

(** X12.  Stopping the foreground job.  On a table that satisfies the
    data-model invariant, with at most one foreground slot and no pid held
    twice, when there is a foreground job and kill succeeds, sigtstp_handler
    sends SIGTSTP to the process group of the job (the negated pid) and to
    nothing else, puts the job in state ST and leaves it in the table;
    afterwards no job is in the foreground and the test of waitfg for that
    pid fails, so the shell leaves waitfg. *)
Theorem sigtstp_handler_stops_fg (w : world) (s : shell) :
  table_ok (jobs s) -> one_fg_slot (jobs s) -> distinct_pids (jobs s) ->
  fgpid (jobs s) <> 0 -> 0 <= kill_ret w ->
  exists i job,
    jobs s !! i = Some job /\ state job = FG /\ pid job = fgpid (jobs s) /\
    sigtstp_handler w s
      = Ret tt (Shell (<[i := Job (pid job) (jid job) ST (cmdline job)]> (jobs s))
                      (nextjid s) (verbose s)
                      (log s ++ [Killed (- pid job) SIGTSTP])) /\
    no_fg (<[i := Job (pid job) (jid job) ST (cmdline job)]> (jobs s)) /\
    present (<[i := Job (pid job) (jid job) ST (cmdline job)]> (jobs s)) (pid job) /\
    forall s', sigtstp_handler w s = Ret tt s' -> waitfg_test (pid job) s' = false.
Proof.
  intros Ht Hone Hd Hfg Hkill.
  destruct (fgpid_slot (jobs s) Ht Hfg) as (i & job & Hi & Hst & Hpid & Hp).
  exists i, job. split; [done|]. split; [done|]. split; [done|].
  assert (Hget : getjobpid (jobs s) (fgpid (jobs s)) = Some i).
  { unfold getjobpid. destruct (Z.ltb_spec (fgpid (jobs s)) 1); [lia|].
    destruct (first_slot_exists (fun job => pid job = fgpid (jobs s)) (jobs s) i job Hi Hpid)
      as (k & other & E).
    rewrite E. simpl. f_equal.
    apply first_slot_Some in E as (Hk & Hother & _).
    apply (Hd k i other job); try done; unfold in_use; lia. }
  assert (Hno : no_fg (<[i := Job (pid job) (jid job) ST (cmdline job)]> (jobs s))).
  { apply no_fg_lookup. intros k other Hk Hother.
    apply list_lookup_insert_Some in Hk as [(_ & <- & _)|(Hne & Hk)]; [done|].
    apply Hne. by apply (Hone i k job other). }
  assert (Hrun : sigtstp_handler w s
            = Ret tt (Shell (<[i := Job (pid job) (jid job) ST (cmdline job)]> (jobs s))
                            (nextjid s) (verbose s)
                            (log s ++ [Killed (- pid job) SIGTSTP]))).
  { unfold sigtstp_handler. rewrite decide_True by done.
    unfold kill. destruct (Z.ltb_spec (kill_ret w) 0); [lia|].
    change (jobs (did (Killed (- fgpid (jobs s)) SIGTSTP) s)) with (jobs s).
    rewrite Hget. f_equal.
    pose proof (set_state_insert i ST (did (Killed (- fgpid (jobs s)) SIGTSTP) s) job Hi)
      as Hins.
    unfold set_state, set_jobs in *. simpl in *. by rewrite Hins, Hpid. }
  split; [done|]. split; [done|]. split.
  - exists i, (Job (pid job) (jid job) ST (cmdline job)).
    split; [apply list_lookup_insert_eq; by eapply lookup_lt_Some|].
    split; [unfold in_use; simpl; lia | done].
  - intros s' Hs'. rewrite Hrun in Hs'. injection Hs' as <-.
    by apply waitfg_test_no_fg.
Qed.

Lemma one_fg_job_slots i job :
  jobs one_fg_job !! i = Some job -> (in_use job \/ state job = FG) -> i = 0%nat.
Proof.
  intros Hi Hu.
  do 16 (destruct i as [|i]; [vm_compute in Hi; injection Hi as <-;
                              first [done | by destruct Hu as [Hu|Hu]; [destruct Hu|]]|]).
  vm_compute in Hi. discriminate.
Qed.

Lemma sigtstp_handler_stops_fg_witness :
  exists i job,
    jobs one_fg_job !! i = Some job /\ state job = FG /\
    pid job = fgpid (jobs one_fg_job) /\
    sigtstp_handler quiet_world one_fg_job
      = Ret tt (Shell (<[i := Job (pid job) (jid job) ST (cmdline job)]> (jobs one_fg_job))
                      (nextjid one_fg_job) (verbose one_fg_job)
                      (log one_fg_job ++ [Killed (- pid job) SIGTSTP])) /\
    no_fg (<[i := Job (pid job) (jid job) ST (cmdline job)]> (jobs one_fg_job)) /\
    present (<[i := Job (pid job) (jid job) ST (cmdline job)]> (jobs one_fg_job))
            (pid job) /\
    forall s', sigtstp_handler quiet_world one_fg_job = Ret tt s' ->
      waitfg_test (pid job) s' = false.
Proof.
  apply (sigtstp_handler_stops_fg quiet_world one_fg_job).
  - vm_compute. table_ok_by_computation.
  - intros i k a b Hi Hk Ha Hb.
    rewrite (one_fg_job_slots i a Hi (or_intror Ha)),
            (one_fg_job_slots k b Hk (or_intror Hb)). reflexivity.
  - intros i k a b Hi Hk Ha Hb _.
    rewrite (one_fg_job_slots i a Hi (or_introl Ha)),
            (one_fg_job_slots k b Hk (or_introl Hb)). reflexivity.
  - vm_compute. discriminate.
  - vm_compute. discriminate.
Defined.

(** ** Reaping several children at once *)

Lemma deletejob_frame (p : Z) (s : shell) i job :
  jobs s !! i = Some job -> pid job <> p ->
  jobs (deletejob p s).2 !! i = Some job.
Proof.
  intros Hi Hpid.
  destruct (return_value_cases (deletejob p s).1) as [E|E].
  - by apply deletejob_fails in E as (-> & _).
  - apply deletejob_succeeds in E as (_ & k & other & Hk & Hother & _ & ->). simpl.
    rewrite list_lookup_insert_ne; [done|]. intros ->. congruence.
Qed.

Lemma deletejob_present (p q : Z) (s : shell) :
  present (jobs (deletejob p s).2) q -> present (jobs s) q.
Proof.
  destruct (return_value_cases (deletejob p s).1) as [E|E].
  - by apply deletejob_fails in E as (-> & _).
  - apply deletejob_succeeds in E as (_ & k & other & _ & _ & _ & ->). simpl.
    intros (i & job & Hi & Hu & Hpid).
    apply list_lookup_insert_Some in Hi as [(_ & <- & _)|(_ & Hi)]; [by destruct Hu|].
    by exists i, job.
Qed.

Lemma deletejob_distinct_pids (p : Z) (s : shell) :
  distinct_pids (jobs s) -> distinct_pids (jobs (deletejob p s).2).
Proof.
  intros Hd.
  destruct (return_value_cases (deletejob p s).1) as [E|E].
  - by apply deletejob_fails in E as (-> & _).
  - apply deletejob_succeeds in E as (_ & k & other & _ & _ & _ & ->). simpl.
    intros i1 i2 a b H1 H2 Ha Hb Hpid.
    apply list_lookup_insert_Some in H1 as [(_ & <- & _)|(_ & H1)]; [by destruct Ha|].
    apply list_lookup_insert_Some in H2 as [(_ & <- & _)|(_ & H2)]; [by destruct Hb|].
    by apply (Hd i1 i2 a b).
Qed.

Lemma deletejob_removes (p : Z) (s : shell) :
  distinct_pids (jobs s) -> 1 <= p -> ~ present (jobs (deletejob p s).2) p.
Proof.
  intros Hd Hp.
  destruct (return_value_cases (deletejob p s).1) as [E|E].
  - apply deletejob_fails in E as (-> & [?|Hall]); [lia|].
    intros (i & job & Hi & _ & Hpid). rewrite Forall_lookup in Hall.
    by destruct (Hall i job Hi).
  - apply deletejob_succeeds in E as (_ & i & job & Hi & Hpid & _ & ->). simpl.
    intros (k & other & Hk & Hu & Hother).
    apply list_lookup_insert_Some in Hk as [(_ & <- & _)|(Hne & Hk)]; [by destruct Hu|].
    apply Hne. apply (Hd i k job other); [done | done | | done | congruence].
    unfold in_use. lia.
Qed.

Lemma reap_jobs (p : Z) (st : status) (s : shell) :
  jobs (reap p st s)
  = match st with
    | Stopped _ => jobs s
    | _ => jobs (deletejob p s).2
    end.
Proof.
  unfold reap. destruct st as [code|sig|sig]; [done | | done].
  unfold deletejob. simpl. destruct (p <? 1); [done|].
  by destruct (first_slot _ _) as [[i job]|].
Qed.

Lemma sigchld_handler_present (reaped : list (Z * status)) (s : shell) (q : Z) :
  present (jobs (sigchld_handler reaped s)) q -> present (jobs s) q.
Proof.
  revert s. induction reaped as [|[p st] later IH]; intros s; simpl; [done|].
  destruct (0 <? p); [|done]. intros H%IH. rewrite reap_jobs in H.
  destruct st; [by apply (deletejob_present p) | by apply (deletejob_present p) | done].
Qed.

(** X13.  One run of sigchld_handler deals with every child that waitpid
    reports, not with one only.  On a table in which no pid is held twice,
    after the handler has gone through a list of reaped children, no child
    reported as exited or killed is in the table any more, and a slot none
    of whose reports is a termination is exactly as it was. *)
Theorem sigchld_handler_reaps_all (reaped : list (Z * status)) (s : shell) :
  distinct_pids (jobs s) ->
  Forall (fun child => 0 < child.1) reaped ->
  (forall p st, (p, st) ∈ reaped -> terminated st ->
     ~ present (jobs (sigchld_handler reaped s)) p) /\
  (forall i job,
     jobs s !! i = Some job ->
     (forall st, (pid job, st) ∈ reaped -> ~ terminated st) ->
     jobs (sigchld_handler reaped s) !! i = Some job).
Proof.
  intros Hd Hpos. revert s Hd.
  induction Hpos as [|[q sq] later Hq _ IH]; intros s Hd.
  { split; [by intros p st H%elem_of_nil | done]. }
  simpl in Hq. simpl. destruct (Z.ltb_spec 0 q); [|lia].
  assert (Hd1 : distinct_pids (jobs (reap q sq s))).
  { rewrite reap_jobs. destruct sq; [by apply deletejob_distinct_pids
                                     | by apply deletejob_distinct_pids | done]. }
  destruct (IH (reap q sq s) Hd1) as [IH1 IH2].
  split.
  - intros p st [[= -> ->]|Hin]%elem_of_cons Hterm; [|by apply (IH1 p st)].
    intros Hpres%sigchld_handler_present. rewrite reap_jobs in Hpres.
    destruct sq; [| |done]; by apply (deletejob_removes q s Hd); [lia|].
  - intros i job Hi Hstopped. apply IH2.
    + rewrite reap_jobs.
      destruct sq as [code|sig|sig]; [| |done].
      * apply deletejob_frame; [done|]. intros Hpid.
        apply (Hstopped (Exited code)); [rewrite Hpid; apply list_elem_of_here | exact I].
      * apply deletejob_frame; [done|]. intros Hpid.
        apply (Hstopped (Signaled sig)); [rewrite Hpid; apply list_elem_of_here | exact I].
    + intros st Hin. apply Hstopped. by apply list_elem_of_further.
Qed.

Lemma two_jobs_slots i job :
  jobs two_jobs !! i = Some job -> in_use job ->
  (i = 0%nat /\ pid job = 5) \/ (i = 1%nat /\ pid job = 6).
Proof.
  intros Hi Hu.
  do 16 (destruct i as [|i]; [vm_compute in Hi; injection Hi as <-;
                              first [by left | by right | by destruct Hu]|]).
  vm_compute in Hi. discriminate.
Qed.

Lemma sigchld_handler_reaps_all_witness :
  (forall p st, (p, st) ∈ [(5, Exited 0); (6, Signaled 9)] -> terminated st ->
     ~ present (jobs (sigchld_handler [(5, Exited 0); (6, Signaled 9)] two_jobs)) p) /\
  (forall i job,
     jobs two_jobs !! i = Some job ->
     (forall st, (pid job, st) ∈ [(5, Exited 0); (6, Signaled 9)] -> ~ terminated st) ->
     jobs (sigchld_handler [(5, Exited 0); (6, Signaled 9)] two_jobs) !! i = Some job).
Proof.
  apply (sigchld_handler_reaps_all [(5, Exited 0); (6, Signaled 9)] two_jobs).
  - intros i k a b Hi Hk Ha Hb Hpid.
    destruct (two_jobs_slots i a Hi Ha) as [[-> Ea]|[-> Ea]],
             (two_jobs_slots k b Hk Hb) as [[-> Eb]|[-> Eb]]; try reflexivity; lia.
  - repeat constructor.
Defined.

(** ** eval on a command that is not a built-in *)

Lemma builtin_cmd_external (w : world) (argv : list string) (s : shell) name :
  argv !! 0%nat = Some name -> external name ->
  builtin_cmd w argv s = Ret (0, stack_pid w) s.
Proof.
  unfold builtin_cmd. intros -> (? & ? & ? & ?).
  rewrite !decide_False; [done | tauto | done | done].
Qed.

Lemma eval_external (w : world) (text : string) (s : shell) bg_flag argv name :
  parseline text = Some (bg_flag, argv) -> argv !! 0%nat = Some name ->
  external name ->
  eval w text s = spawn w bg_flag argv text s.
Proof.
  intros Hparse Hname Hext. unfold eval, spawn.
  rewrite Hparse, (builtin_cmd_external w argv s name Hname Hext). simpl.
  unfold Fork. destruct (fork_ret w <? 0); [done|]. simpl.
  destruct ((fork_ret w =? 0) && negb (execve_fails w)); [done|].
  destruct bg_flag; by destruct (addjob _ _ _ _).
Qed.












(** X16.  When fork or execve fails.  For a command that is not a built-in:
    if fork fails, eval writes the error and the shell exits with status 1,
    the table untouched; in the child, if execve succeeds the program takes
    over; if execve fails, nothing ends the child: eval registers nothing
    (addjob refuses pid 0), leaves the table and the counter as they were
    and goes to a waitfg that returns at once, so that the child carries on
    as a second shell. *)
Theorem eval_fork_outcomes
    (w : world) (text : string) (s : shell)
    (bg_flag : bool) (argv : list string) (name : string) :
  parseline text = Some (bg_flag, argv) ->
  argv !! 0%nat = Some name ->
  external name ->
  (fork_ret w < 0 ->
     eval w text s
     = Exit 1 (emit ("Could not fork child process: " +:+ strerror w +:+ nl) s)) /\
  (fork_ret w = 0 -> execve_fails w = false ->
     eval w text s = Exec argv (did (Forked 0) s)) /\
  (fork_ret w = 0 -> execve_fails w = true ->
     exists s',
       eval w text s = Ret 0 s' /\
       jobs s' = jobs s /\ nextjid s' = nextjid s /\
       waitfg_test 0 s' = false).
Proof.
  intros Hparse Hname Hext.
  rewrite (eval_external w text s bg_flag argv name Hparse Hname Hext).
  unfold spawn. split; [|split].
  - intros Hneg. destruct (Z.ltb_spec (fork_ret w) 0); [|lia].
    reflexivity.
  - intros -> ->. done.
  - intros -> ->. simpl. eexists. split; [reflexivity|].
    by destruct bg_flag.
Qed.

Lemma eval_fork_outcomes_witness :
  eval fork_fails_world (line "ls") one_bg_job
  = Exit 1 (emit ("Could not fork child process: " +:+ strerror fork_fails_world +:+ nl)
                 one_bg_job) /\
  eval child_world (line "ls") one_bg_job = Exec ["ls"] (did (Forked 0) one_bg_job) /\
  (exists s',
     eval child_no_program_world (line "ls") one_bg_job = Ret 0 s' /\
     jobs s' = jobs one_bg_job /\ nextjid s' = nextjid one_bg_job /\
     waitfg_test 0 s' = false).
Proof.
  split; [|split].
  - apply (eval_fork_outcomes fork_fails_world (line "ls") one_bg_job false ["ls"] "ls").
    + reflexivity.
    + reflexivity.
    + repeat split; discriminate.
    + reflexivity.
  - apply (eval_fork_outcomes child_world (line "ls") one_bg_job false ["ls"] "ls").
    + reflexivity.
    + reflexivity.
    + repeat split; discriminate.
    + reflexivity.
    + reflexivity.
  - apply (eval_fork_outcomes child_no_program_world (line "ls") one_bg_job false ["ls"] "ls").
    + reflexivity.
    + reflexivity.
    + repeat split; discriminate.
    + reflexivity.
    + reflexivity.
Defined.

(** ** parseline: words and quoted arguments *)

(** X17.  On a line without single quotes that holds fewer than [MAXARGS]
    words, parseline splits the line into its words, the maximal runs of
    characters other than the space: with no word it returns true and an
    empty argv; when the last word begins with an ampersand it returns
    true and the words but the last; otherwise false and all the words. *)
Theorem parseline_quote_free (body : string) :
  quote_free body = true ->
  (length (words body) < MAXARGS)%nat ->
  parseline (body +:+ nl)
  = Some (match last (words body) with
          | None => (true, [])
          | Some word =>
              if starts_with_amp word then (true, removelast (words body))
              else (false, words body)
          end).
Proof.
  intros Hq Hfits. unfold parseline.
  destruct (body +:+ nl) as [|c0 tail] eqn:Hline;
    [by destruct (line_not_empty body)|].
  rewrite <- Hline. rewrite (args_of_words body Hq).
  destruct (Nat.leb_spec MAXARGS (length (words body))); [lia|].
  destruct (last (words body)) as [word|]; [|done].
  by destruct (starts_with_amp word).
Qed.

Lemma parseline_quote_free_witness :
  parseline ("  make   -j 4  &" +:+ nl)
  = Some (match last (words "  make   -j 4  &") with
          | None => (true, [])
          | Some word =>
              if starts_with_amp word
              then (true, removelast (words "  make   -j 4  &"))
              else (false, words "  make   -j 4  &")
          end).
Proof.
  apply (parseline_quote_free "  make   -j 4  &").
  - reflexivity.
  - vm_compute. lia.
Defined.

Lemma argv_all_rounds (n : nat) (buf : string) :
  (String.length buf <= n)%nat -> build_argv n buf = argv_all buf.
Proof. apply build_argv_rounds. Qed.

Lemma argv_all_space (buf : string) :
  argv_all (String " " buf) = argv_all buf.
Proof.
  unfold argv_all at 1. rewrite build_argv_leading_space.
  apply argv_all_rounds. simpl. lia.
Qed.

Lemma argv_all_word (word rest : string) :
  word <> "" -> space_free word = true -> quote_free word = true ->
  argv_all (word +:+ String " " rest) = word :: argv_all rest.
Proof.
  intros Hne Hs Hq. unfold argv_all at 1.
  rewrite append_length. simpl String.length.
  replace (String.length word + S (String.length rest))%nat
    with (S (String.length word + String.length rest)) by lia.
  simpl. rewrite (next_arg_word word rest Hne Hs Hq). f_equal.
  apply argv_all_rounds. lia.
Qed.

Lemma argv_all_words (text : string) :
  forall (word tail : string),
    quote_free text = true -> quote_free word = true -> space_free word = true ->
    argv_all (word +:+ text +:+ String " " tail)
    = words_from word text ++ argv_all tail.
Proof.
  induction text as [|c text IH]; intros word tail Hqt Hqw Hsw.
  - rewrite append_nil. simpl.
    destruct (decide (word = "")) as [->|Hne].
    + rewrite append_nil. apply argv_all_space.
    + by apply argv_all_word.
  - simpl in Hqt. apply andb_true_iff in Hqt as [Hc Hqt].
    apply negb_true_iff in Hc.
    rewrite append_cons. simpl.
    destruct (Ascii.eqb_spec c " ") as [->|Hsp].
    + destruct (decide (word = "")) as [->|Hne].
      * rewrite append_nil, argv_all_space.
        rewrite <- (append_nil (text +:+ String " " tail)). by apply IH.
      * rewrite (argv_all_word word _ Hne Hsw Hqw). simpl. f_equal.
        rewrite <- (append_nil (text +:+ String " " tail)). by apply IH.
    + rewrite <- append_snoc. apply IH; [done | |].
      * apply quote_free_snoc; [done|]. by destruct (Ascii.eqb_spec c "'").
      * by apply space_free_snoc.
Qed.

Lemma strchr_quote (q rest : string) :
  quote_free q = true ->
  strchr (q +:+ String "'" rest) "'" = Some (q, rest).
Proof.
  induction q as [|a q IH]; [done|].
  rewrite append_cons. simpl.
  intros [Ha Hq]%andb_true_iff. apply negb_true_iff in Ha.
  by rewrite Ha, IH.
Qed.


Lemma quote_free_app (a b : string) :
  quote_free a = true -> quote_free b = true -> quote_free (a +:+ b) = true.
Proof.
  intros Ha Hb. induction a as [|c a IH]; [done|].
  rewrite append_cons. simpl in *.
  apply andb_true_iff in Ha as [-> Ha]. by rewrite IH.
Qed.

Lemma argv_all_quoted (q rest : string) :
  quote_free q = true ->
  argv_all (String "'" (q +:+ String "'" rest)) = q :: argv_all rest.
Proof.
  intros Hq. unfold argv_all at 1. simpl.
  unfold next_arg. simpl. rewrite (strchr_quote q rest Hq). f_equal.
  apply argv_all_rounds. rewrite append_length. simpl. lia.
Qed.


Lemma args_of_line (body : string) :
  args_of (body +:+ nl) = argv_all (body +:+ " ").
Proof. unfold args_of, argv_all. by rewrite set_last_to_space_line. Qed.

(** The arguments that the loop stores from a line with one quoted span. *)
Lemma args_of_quoted (pre q post : string) :
  quote_free pre = true -> quote_free q = true -> quote_free post = true ->
  args_of ((pre +:+ " '" +:+ q +:+ "'" +:+ post) +:+ nl)
  = words pre ++ q :: words post.
Proof.
  intros Hpre Hq Hpost. rewrite args_of_line, !append_assoc.
  change (" '" +:+ q +:+ "'" +:+ post +:+ " ")
    with (String " " (String "'" (q +:+ String "'" (post +:+ " ")))).
  rewrite <- (append_nil (pre +:+ _)).
  rewrite (argv_all_words pre "" _ Hpre eq_refl eq_refl).
  rewrite (argv_all_quoted q _ Hq). unfold words. do 2 f_equal.
  rewrite <- (append_nil (post +:+ " ")).
  change (post +:+ " ") with (post +:+ String " " "").
  rewrite (argv_all_words post "" "" Hpost eq_refl eq_refl).
  apply app_nil_r.
Qed.


(** X18.  Characters enclosed in single quotes are one argument.  When a
    quoted span follows a space (or opens the line), neither the span nor
    the text around it holds another quote, and the line holds fewer than
    [MAXARGS] arguments, the arguments of parseline are the words before the
    span, then the span as it is, spaces included and quotes removed, then
    the words after it.  parseline returns true and these arguments but the
    last when the last one begins with an ampersand, false and all of them
    otherwise; the last one is the span itself when no word follows it. *)
Theorem parseline_quoted_span (pre q post : string) :
  quote_free pre = true -> quote_free q = true -> quote_free post = true ->
  (length (words pre ++ q :: words post) < MAXARGS)%nat ->
  parseline ((pre +:+ " '" +:+ q +:+ "'" +:+ post) +:+ nl)
  = Some (if starts_with_amp (default q (last (words post)))
          then (true, removelast (words pre ++ q :: words post))
          else (false, words pre ++ q :: words post)).
Proof.
  intros Hpre Hq Hpost Hfits. unfold parseline.
  destruct ((pre +:+ " '" +:+ q +:+ "'" +:+ post) +:+ nl) as [|c0 tail] eqn:Hline;
    [by destruct (line_not_empty (pre +:+ " '" +:+ q +:+ "'" +:+ post))|].
  rewrite <- Hline, (args_of_quoted pre q post Hpre Hq Hpost).
  destruct (Nat.leb_spec MAXARGS (length (words pre ++ q :: words post))); [lia|].
  assert (Hlast : last (words pre ++ q :: words post)
                  = Some (default q (last (words post)))).
  { rewrite last_app. change (q :: words post) with ([q] ++ words post).
    rewrite last_app. by destruct (last (words post)). }
  rewrite Hlast. by destruct (starts_with_amp _).
Qed.

Lemma parseline_quoted_span_witness :
  parseline (("echo" +:+ " '" +:+ "a  & b" +:+ "'" +:+ " c &") +:+ nl)
  = Some (if starts_with_amp (default "a  & b" (last (words " c &")))
          then (true, removelast (words "echo" ++ "a  & b" :: words " c &"))
          else (false, words "echo" ++ "a  & b" :: words " c &")).
Proof.
  apply (parseline_quoted_span "echo" "a  & b" " c &").
  - reflexivity.
  - reflexivity.
  - reflexivity.
  - vm_compute. lia.
Defined.



Example parseline_open_quote :
  parseline (line "rm -r 'my files") = Some (false, ["rm"; "-r"]).
Proof. reflexivity. Qed.

(** ** Job ids as the shell writes them and reads them *)

Lemma digit_of_char (d : N) :
  (d < 10)%N -> digit_of (pretty_N_char d) = Some (Z.of_N d).
Proof.
  intros Hd.
  assert (d = 0 \/ d = 1 \/ d = 2 \/ d = 3 \/ d = 4 \/ d = 5 \/ d = 6 \/ d = 7
          \/ d = 8 \/ d = 9)%N as Hcases by lia.
  repeat (destruct Hcases as [->|Hcases]; [reflexivity|]). by subst.
Qed.

Lemma scan_digits_pretty_go (x : N) :
  forall s, scan_digits (pretty_N_go x s) 0 = scan_digits s (Z.of_N x).
Proof.
  induction (N.lt_wf_0 x) as [x _ IH]. intros s.
  destruct (decide (x = 0%N)) as [->|Hx]; [by rewrite pretty_N_go_0|].
  rewrite pretty_N_go_step by lia.
  rewrite IH by (apply N.div_lt; lia). simpl.
  rewrite digit_of_char by (apply N.mod_lt; lia). f_equal.
  rewrite (N.div_mod x 10) at 3 by lia. lia.
Qed.

Lemma digit_char_plain (c : ascii) :
  is_Some (digit_of c) ->
  is_white c = false /\ c <> "-"%char /\ c <> "+"%char /\
  c <> "'"%char /\ c <> " "%char.
Proof.
  intros [d Hd].
  destruct c as [[] [] [] [] [] [] [] []]; vm_compute in Hd; try discriminate Hd;
    repeat split; discriminate.
Qed.

Lemma scan_int_digit (c : ascii) (rest : string) :
  is_Some (digit_of c) ->
  scan_int (String c rest) = Some (scan_digits (String c rest) 0).
Proof.
  intros [d Hd].
  destruct c as [[] [] [] [] [] [] [] []]; vm_compute in Hd; try discriminate Hd;
    reflexivity.
Qed.

Lemma scan_int_minus (c : ascii) (rest : string) :
  is_Some (digit_of c) ->
  scan_int (String "-" (String c rest)) = Some (- scan_digits (String c rest) 0).
Proof.
  intros [d Hd].
  destruct c as [[] [] [] [] [] [] [] []]; vm_compute in Hd; try discriminate Hd;
    reflexivity.
Qed.

Lemma pretty_go_head (x : N) :
  forall s,
    (0 < x)%N \/ (exists c rest, s = String c rest /\ is_Some (digit_of c)) ->
    exists c rest, pretty_N_go x s = String c rest /\ is_Some (digit_of c).
Proof.
  induction (N.lt_wf_0 x) as [x _ IH]. intros s Hs.
  destruct (decide (x = 0%N)) as [->|Hx].
  - rewrite pretty_N_go_0. destruct Hs as [?|?]; [lia | done].
  - rewrite pretty_N_go_step by lia. apply IH; [apply N.div_lt; lia|].
    right. eexists _, _. split; [reflexivity|].
    rewrite digit_of_char by (apply N.mod_lt; lia). by eexists.
Qed.

Lemma pretty_positive_go (p : positive) :
  pretty (Z.pos p) = pretty_N_go (N.pos p) "".
Proof. reflexivity. Qed.

Lemma scan_int_pretty (j : Z) : scan_int (pretty j) = Some j.
Proof.
  destruct j as [|p|p].
  - reflexivity.
  - rewrite pretty_positive_go.
    destruct (pretty_go_head (N.pos p) "") as (c & rest & E & Hc); [left; lia|].
    rewrite E, (scan_int_digit c rest Hc). f_equal.
    rewrite <- E, scan_digits_pretty_go. simpl. lia.
  - change (pretty (Z.neg p)) with ("-" +:+ pretty_N_go (N.pos p) "").
    destruct (pretty_go_head (N.pos p) "") as (c & rest & E & Hc); [left; lia|].
    rewrite E, append_cons, append_nil, (scan_int_minus c rest Hc). f_equal.
    rewrite <- E, scan_digits_pretty_go. simpl. lia.
Qed.

(** X20.  A job id reads back as it is written.  The text [%d] that the
    shell prints for a job id, put after a percent sign, is converted by the
    [sscanf] of do_bgfg into that same job id: [fg %N] and [bg %N] name the
    job that an announcement or the listing shows as [[N]]. *)
Theorem sscanf_jid_pretty (j : Z) : sscanf_jid ("%" +:+ pretty j) = Some j.
Proof.
  change ("%" +:+ pretty j) with (String "%" (pretty j)).
  simpl. apply scan_int_pretty.
Qed.

(** ** fg and bg on a job of the table *)

Lemma pretty_go_digits (x : N) :
  forall s, digits_only s = true -> digits_only (pretty_N_go x s) = true.
Proof.
  induction (N.lt_wf_0 x) as [x _ IH]. intros s Hs.
  destruct (decide (x = 0%N)) as [->|Hx]; [by rewrite pretty_N_go_0|].
  rewrite pretty_N_go_step by lia. apply IH; [apply N.div_lt; lia|].
  simpl. rewrite Hs, andb_true_r. apply bool_decide_eq_true.
  rewrite digit_of_char by (apply N.mod_lt; lia). by eexists.
Qed.

Lemma digits_only_plain (text : string) :
  digits_only text = true -> space_free text = true /\ quote_free text = true.
Proof.
  induction text as [|c text IH]; [done|]. simpl.
  intros [Hc Htext]%andb_true_iff. apply bool_decide_eq_true in Hc.
  destruct (digit_char_plain c Hc) as (_ & _ & _ & Hq & Hsp).
  destruct (IH Htext) as [-> ->].
  destruct (Ascii.eqb_spec c " "), (Ascii.eqb_spec c "'"); done.
Qed.

Lemma words_from_space_free (text : string) :
  forall word, space_free text = true ->
    words_from word text
    = if decide (word +:+ text = "") then [] else [word +:+ text].
Proof.
  induction text as [|c text IH]; intros word Hs.
  - simpl. rewrite append_empty_r. done.
  - simpl in Hs. apply andb_true_iff in Hs as [Hc Hs]. apply negb_true_iff in Hc.
    simpl. rewrite Hc, (IH _ Hs), append_snoc. done.
Qed.

Lemma words_from_first (cmd : string) :
  forall word rest, space_free cmd = true -> word +:+ cmd <> "" ->
    words_from word (cmd +:+ String " " rest)
    = (word +:+ cmd) :: words_from "" rest.
Proof.
  induction cmd as [|c cmd IH]; intros word rest Hs Hne.
  - rewrite append_nil. rewrite append_empty_r in *. simpl.
    by rewrite decide_False.
  - simpl in Hs. apply andb_true_iff in Hs as [Hc Hs]. apply negb_true_iff in Hc.
    rewrite append_cons. simpl. rewrite Hc.
    rewrite IH; [by rewrite append_snoc | done | by rewrite append_snoc].
Qed.

(** A command name and one argument, neither with a space or a quote. *)
Lemma parseline_two_args (cmd arg : string) :
  cmd <> "" -> arg <> "" ->
  space_free cmd = true -> quote_free cmd = true ->
  space_free arg = true -> quote_free arg = true ->
  starts_with_amp arg = false ->
  parseline ((cmd +:+ String " " arg) +:+ nl) = Some (false, [cmd; arg]).
Proof.
  intros Hcmd Harg Hsc Hqc Hsa Hqa Hamp.
  assert (Hwords : words (cmd +:+ String " " arg) = [cmd; arg]).
  { unfold words. rewrite words_from_first by done.
    rewrite append_nil, (words_from_space_free arg "" Hsa), append_nil.
    by rewrite decide_False. }
  unfold parseline.
  destruct ((cmd +:+ String " " arg) +:+ nl) as [|c0 tail] eqn:Hline;
    [by destruct (line_not_empty (cmd +:+ String " " arg))|].
  rewrite <- Hline, args_of_words, Hwords.
  - simpl. by rewrite Hamp.
  - apply quote_free_app; [done|]. simpl. done.
Qed.

Lemma jobspec_plain (j : Z) :
  1 <= j ->
  space_free (String "%" (pretty j)) = true /\
  quote_free (String "%" (pretty j)) = true.
Proof.
  intros Hj. destruct j as [|p|p]; [lia | | lia].
  rewrite pretty_positive_go.
  destruct (digits_only_plain (pretty_N_go (N.pos p) "")) as [Hs Hq];
    [by apply pretty_go_digits|].
  simpl. by rewrite Hs, Hq.
Qed.

(** X21.  fg and bg on a job of the table.  When [N] is the job id of a job
    of the table and kill succeeds, the line [fg %N] sends SIGCONT to the
    pid of the job, puts the job in state FG, writes nothing and reaches
    waitfg with that pid; the line [bg %N] sends SIGCONT, puts the job in
    state BG and writes [[N] (pid) cmdline]; no other slot and no other
    field changes. *)
Theorem eval_fg_bg_jobspec (w : world) (s : shell) (j : Z) (i : nat) (job : job_t) :
  getjobjid (jobs s) j = Some i ->
  jobs s !! i = Some job ->
  0 <= kill_ret w ->
  eval w (("fg %" +:+ pretty j) +:+ nl) s
  = Ret (pid job)
        (Shell (<[i := Job (pid job) (jid job) FG (cmdline job)]> (jobs s))
               (nextjid s) (verbose s)
               (log s ++ [Killed (pid job) SIGCONT])) /\
  eval w (("bg %" +:+ pretty j) +:+ nl) s
  = Ret (pid job)
        (Shell (<[i := Job (pid job) (jid job) BG (cmdline job)]> (jobs s))
               (nextjid s) (verbose s)
               (log s ++ [Killed (pid job) SIGCONT;
                          Print ("[" +:+ pretty j +:+ "] (" +:+ pretty (pid job)
                                 +:+ ") " +:+ cmdline job)])).
Proof.
  intros Hget Hi Hkill.
  destruct (getjobjid_slot _ _ _ Hget) as (job' & Hi' & _ & Hj).
  destruct (jobspec_plain j Hj) as [Hs Hq].
  assert (Hparse : forall cmd, cmd = "fg" \/ cmd = "bg" ->
            parseline ((cmd +:+ String " " (String "%" (pretty j))) +:+ nl)
            = Some (false, [cmd; String "%" (pretty j)])).
  { intros cmd [->| ->]; by apply parseline_two_args. }
  assert (Hbgfg : forall cmd, cmd = "fg" \/ cmd = "bg" ->
            eval w ((cmd +:+ String " " (String "%" (pretty j))) +:+ nl) s
            = do_bgfg w [cmd; String "%" (pretty j)] s).
  { intros cmd Hcmd.
    by apply (eval_bgfg w _ s false [cmd; String "%" (pretty j)] cmd); [apply Hparse|..]. }
  assert (Hinsert : forall st,
            set_state i st (did (Killed (pid job) SIGCONT) s)
            = Shell (<[i := Job (pid job) (jid job) st (cmdline job)]> (jobs s))
                    (nextjid s) (verbose s) (log s ++ [Killed (pid job) SIGCONT])).
  { intros st.
    pose proof (set_state_insert i st (did (Killed (pid job) SIGCONT) s) job Hi) as H.
    unfold set_state, set_jobs in *. simpl in *. by rewrite H. }
  change ("fg %" +:+ pretty j) with ("fg" +:+ String " " (String "%" (pretty j))).
  change ("bg %" +:+ pretty j) with ("bg" +:+ String " " (String "%" (pretty j))).
  rewrite !Hbgfg by auto.
  unfold do_bgfg.
  change ([?cmd; String "%" (pretty j)] !! 1%nat) with (Some (String "%" (pretty j))).
  split.
  - change (["fg"; String "%" (pretty j)] !! 1%nat) with (Some (String "%" (pretty j))).
    change (sscanf_jid (String "%" (pretty j))) with (scan_int (pretty j)).
    rewrite scan_int_pretty. simpl default. rewrite Hget, Hi.
    unfold kill. destruct (Z.ltb_spec (kill_ret w) 0); [lia|].
    rewrite decide_False by discriminate. by rewrite Hinsert.
  - change (["bg"; String "%" (pretty j)] !! 1%nat) with (Some (String "%" (pretty j))).
    change (sscanf_jid (String "%" (pretty j))) with (scan_int (pretty j)).
    rewrite scan_int_pretty. simpl default. rewrite Hget, Hi.
    unfold kill. destruct (Z.ltb_spec (kill_ret w) 0); [lia|].
    rewrite decide_True by done. unfold emit, did. rewrite Hinsert. simpl.
    by rewrite <- app_assoc.
Qed.

Lemma eval_fg_bg_jobspec_witness :
  eval quiet_world (("fg %" +:+ pretty 1) +:+ nl) one_bg_job
  = Ret (pid (Job 5 1 BG (line "sleep 100 &")))
        (Shell (<[0%nat := Job 5 1 FG (line "sleep 100 &")]> (jobs one_bg_job))
               (nextjid one_bg_job) (verbose one_bg_job)
               (log one_bg_job ++ [Killed 5 SIGCONT])) /\
  eval quiet_world (("bg %" +:+ pretty 1) +:+ nl) one_bg_job
  = Ret (pid (Job 5 1 BG (line "sleep 100 &")))
        (Shell (<[0%nat := Job 5 1 BG (line "sleep 100 &")]> (jobs one_bg_job))
               (nextjid one_bg_job) (verbose one_bg_job)
               (log one_bg_job
                ++ [Killed 5 SIGCONT;
                    Print ("[" +:+ pretty 1 +:+ "] (" +:+ pretty 5
                           +:+ ") " +:+ line "sleep 100 &")])).
Proof.
  apply (eval_fg_bg_jobspec quiet_world one_bg_job 1 0%nat (Job 5 1 BG (line "sleep 100 &"))).
  - reflexivity.
  - reflexivity.
  - vm_compute. discriminate.
Defined.

(** ** Lines that leave an argument missing *)

(** X22.  Missing words.  parseline ends [argv] with NULL, and neither
    builtin_cmd nor do_bgfg tests for it: a line without any word reaches
    [strcmp (argv[0], ...)] with [argv[0] == NULL], and a line whose only
    word is [fg] or [bg] reaches [sscanf (argv[1], ...)] with
    [argv[1] == NULL].  Whatever the spacing, whatever the job table, eval
    ends in the fault; no job is added and nothing is printed before it. *)
Theorem eval_missing_word (w : world) (s : shell) (body : string) :
  quote_free body = true ->
  words body = [] \/ words body = ["fg"] \/ words body = ["bg"] ->
  eval w (body +:+ nl) s = Fault.
Proof.
  intros Hq Hwords. unfold eval, parseline.
  destruct (body +:+ nl) as [|c0 tail] eqn:Hline;
    [by destruct (line_not_empty body)|].
  rewrite <- Hline, (args_of_words body Hq).
  destruct Hwords as [-> | [-> | ->]]; reflexivity.
Qed.

Lemma eval_missing_word_witness :
  eval quiet_world ("  bg  " +:+ nl) one_st_job = Fault.
Proof.
  apply (eval_missing_word quiet_world one_st_job "  bg  ").
  - reflexivity.
  - right. right. reflexivity.
Defined.

(** ** Interrupting the foreground job *)

Lemma first_slot_of_pid (t : list job_t) i job :
  distinct_pids t -> t !! i = Some job -> 1 <= pid job ->
  first_slot (fun other => pid other = pid job) t = Some (i, job).
Proof.
  intros Hd Hi Hp.
  destruct (first_slot_exists (fun other => pid other = pid job) t i job Hi eq_refl)
    as (k & other & E).
  rewrite E. apply first_slot_Some in E as (Hk & Hother & _).
  assert (k = i) as -> by (apply (Hd k i other job); try done; unfold in_use; lia).
  congruence.
Qed.

Lemma first_slot_cleared (t : list job_t) i job :
  distinct_pids t -> t !! i = Some job -> 1 <= pid job ->
  first_slot (fun other => pid other = pid job) (<[i := Job 0 0 UNDEF ""]> t) = None.
Proof.
  intros Hd Hi Hp. apply first_slot_None, Forall_lookup. intros k other Hk Heq.
  apply list_lookup_insert_Some in Hk as [(_ & <- & _)|(Hne & Hk)]; [simpl in Heq; lia|].
  apply Hne. apply (Hd i k job other); try done; unfold in_use; lia.
Qed.

(** X23.  Interrupting the foreground job.  The shell sleeps in waitfg for
    the foreground job; the table satisfies the data-model invariant, no pid
    is held twice and kill succeeds.  Then ctrl-c makes sigint_handler send
    SIGINT to the process group of the job and change nothing else; when the
    kernel then reports the job as terminated by a signal, sigchld_handler
    writes [Job [jid] (pid) terminated by signal sig], clears the slot of the
    job and recomputes [nextjid]; and the next test of waitfg fails, so that
    the shell is back at the prompt. *)
Theorem sigint_round_trip (w : world) (s : shell) (sig : Z) :
  table_ok (jobs s) -> distinct_pids (jobs s) ->
  fgpid (jobs s) <> 0 -> 0 <= kill_ret w ->
  exists i job,
    jobs s !! i = Some job /\ state job = FG /\ pid job = fgpid (jobs s) /\
    run [Sigint w; Sigchld [(pid job, Signaled sig)]; Wake]
        (Sys s (Waiting (pid job)))
    = Sys (Shell (<[i := Job 0 0 UNDEF ""]> (jobs s))
                 (maxjid (<[i := Job 0 0 UNDEF ""]> (jobs s)) + 1)
                 (verbose s)
                 (log s ++ [Killed (- pid job) SIGINT;
                            Print ("Job [" +:+ pretty (jid job) +:+ "] ("
                                   +:+ pretty (pid job)
                                   +:+ ") terminated by signal "
                                   +:+ pretty sig +:+ nl)]))
          Prompt.
Proof.
  intros Ht Hd Hfg Hkill.
  destruct (fgpid_slot (jobs s) Ht Hfg) as (i & job & Hi & Hst & Hpid & Hp).
  exists i, job. split; [done|]. split; [done|]. split; [done|].
  pose proof (first_slot_of_pid (jobs s) i job Hd Hi Hp) as Hfirst.
  pose proof (first_slot_cleared (jobs s) i job Hd Hi Hp) as Hgone.
  change (run [?a; ?b; ?c] ?x) with (step (step (step x a) b) c).
  assert (Hint : step (Sys s (Waiting (pid job))) (Sigint w)
                 = Sys (did (Killed (- pid job) SIGINT) s) (Waiting (pid job))).
  { unfold step, sigint_handler. simpl. rewrite decide_True by done.
    unfold kill. destruct (Z.ltb_spec (kill_ret w) 0); [lia|].
    by rewrite Hpid. }
  rewrite Hint.
  assert (Hchld : step (Sys (did (Killed (- pid job) SIGINT) s) (Waiting (pid job)))
                       (Sigchld [(pid job, Signaled sig)])
                  = Sys (Shell (<[i := Job 0 0 UNDEF ""]> (jobs s))
                               (maxjid (<[i := Job 0 0 UNDEF ""]> (jobs s)) + 1)
                               (verbose s)
                               (log s ++ [Killed (- pid job) SIGINT;
                                          Print ("Job [" +:+ pretty (jid job) +:+ "] ("
                                                 +:+ pretty (pid job)
                                                 +:+ ") terminated by signal "
                                                 +:+ pretty sig +:+ nl)]))
                        (Waiting (pid job))).
  { unfold step. simpl. destruct (Z.ltb_spec 0 (pid job)); [|lia].
    unfold reap, pid2jid, deletejob, emit, did. simpl.
    destruct (Z.ltb_spec (pid job) 1); [lia|].
    rewrite Hfirst. simpl. by rewrite <- app_assoc. }
  rewrite Hchld.
  unfold step, waitfg_test, pid2jid. simpl.
  destruct (Z.ltb_spec (pid job) 1); [lia|].
  by rewrite Hgone.
Qed.

Lemma sigint_round_trip_witness :
  exists i job,
    jobs one_fg_job !! i = Some job /\ state job = FG /\
    pid job = fgpid (jobs one_fg_job) /\
    run [Sigint quiet_world; Sigchld [(pid job, Signaled 2)]; Wake]
        (Sys one_fg_job (Waiting (pid job)))
    = Sys (Shell (<[i := Job 0 0 UNDEF ""]> (jobs one_fg_job))
                 (maxjid (<[i := Job 0 0 UNDEF ""]> (jobs one_fg_job)) + 1)
                 (verbose one_fg_job)
                 (log one_fg_job
                  ++ [Killed (- pid job) SIGINT;
                      Print ("Job [" +:+ pretty (jid job) +:+ "] ("
                             +:+ pretty (pid job)
                             +:+ ") terminated by signal "
                             +:+ pretty 2 +:+ nl)]))
          Prompt.
Proof.
  apply (sigint_round_trip quiet_world one_fg_job 2).
  - vm_compute. table_ok_by_computation.
  - intros i k a b Hi Hk Ha Hb _.
    rewrite (one_fg_job_slots i a Hi (or_introl Ha)),
            (one_fg_job_slots k b Hk (or_introl Hb)). reflexivity.
  - vm_compute. discriminate.
  - vm_compute. discriminate.
Defined.

(** ** parseline against the arguments read character by character *)

Lemma strchr_line_space (text : string) :
  strchr (text +:+ " ") " "
  = match strchr text " " with
    | Some (word, rest) => Some (word, rest +:+ " ")
    | None => Some (text, "")
    end.
Proof.
  induction text as [|a text IH]; [done|].
  rewrite append_cons. simpl. destruct (Ascii.eqb a " "); [done|].
  rewrite IH. by destruct (strchr text " ") as [[word rest]|].
Qed.

Lemma strchr_line_quote (text : string) :
  strchr (text +:+ " ") "'"
  = match strchr text "'" with
    | Some (q, rest) => Some (q, rest +:+ " ")
    | None => None
    end.
Proof.
  induction text as [|a text IH]; [done|].
  rewrite append_cons. simpl. destruct (Ascii.eqb a "'"); [done|].
  rewrite IH. by destruct (strchr text "'") as [[q rest]|].
Qed.

Lemma arguments_from_plain (text : string) :
  forall word,
    arguments_from (Plain word) text
    = match strchr text " " with
      | Some (more, rest) => (word +:+ more) :: arguments_from Between rest
      | None => [word +:+ text]
      end.
Proof.
  induction text as [|c text IH]; intros word; simpl.
  - by rewrite append_empty_r.
  - destruct (Ascii.eqb c " "); [by rewrite append_empty_r|].
    rewrite IH. destruct (strchr text " ") as [[more rest]|]; by rewrite append_snoc.
Qed.

Lemma arguments_from_quoted (text : string) :
  forall word,
    arguments_from (Quoted word) text
    = match strchr text "'" with
      | Some (more, rest) => (word +:+ more) :: arguments_from Between rest
      | None => []
      end.
Proof.
  induction text as [|c text IH]; intros word; simpl; [done|].
  destruct (Ascii.eqb c "'"); [by rewrite append_empty_r|].
  rewrite IH. destruct (strchr text "'") as [[more rest]|]; [|done].
  by rewrite append_snoc.
Qed.

(** The loop of parseline, with its pointer that hops from delimiter to
    delimiter, stores the arguments that the reader finds character by
    character. *)
Lemma argv_all_arguments (n : nat) :
  forall text, (String.length text < n)%nat ->
    argv_all (text +:+ " ") = arguments text.
Proof.
  induction n as [|n IH]; intros text Hn; [lia|].
  destruct text as [|c text]; [done|].
  rewrite append_cons. simpl in Hn.
  destruct (Ascii.eqb_spec c " ") as [->|Hsp].
  { rewrite argv_all_space. unfold arguments. simpl. apply IH. lia. }
  destruct (Ascii.eqb_spec c "'") as [->|Hq].
  - unfold argv_all, arguments. simpl. unfold next_arg. simpl.
    rewrite strchr_line_quote, arguments_from_quoted.
    destruct (strchr text "'") as [[q rest]|] eqn:E; [|done].
    rewrite append_nil. f_equal.
    apply strchr_length in E.
    rewrite argv_all_rounds by (rewrite !append_length; simpl; lia).
    apply IH. lia.
  - unfold argv_all, arguments. simpl.
    rewrite (next_arg_unquoted _ c (text +:+ " ")); [|simpl; by destruct (Ascii.eqb_spec c " ")|done].
    rewrite <- append_cons, strchr_line_space. simpl.
    destruct (Ascii.eqb_spec c " ") as [|_]; [done|].
    destruct (Ascii.eqb_spec c "'") as [|_]; [done|].
    rewrite arguments_from_plain.
    destruct (strchr text " ") as [[more rest]|] eqn:E.
    + rewrite append_cons, append_nil. f_equal.
      apply strchr_length in E.
      rewrite argv_all_rounds by (rewrite !append_length; simpl; lia).
      apply IH. lia.
    + rewrite append_cons, append_nil. f_equal.
      by destruct (String.length (text +:+ " ")).
Qed.

Lemma args_of_arguments (body : string) :
  args_of (body +:+ nl) = arguments body.
Proof.
  rewrite args_of_line.
  apply (argv_all_arguments (S (String.length body))). lia.
Qed.

(** On a line without quotes the arguments are the words. *)
Lemma arguments_words (body : string) :
  quote_free body = true -> arguments body = words body.
Proof. intros Hq. by rewrite <- args_of_arguments, args_of_words. Qed.

(** C10.  On a line that ends with a newline and holds fewer than [MAXARGS]
    arguments, where the arguments are read off the line character by
    character (spaces separate them, a span in single quotes is one
    argument, a tab is a character like any other), parseline returns, and
    it reports a background job exactly when the line holds no argument at
    all, in which case the argv it has built is empty, or when the first
    character of the last argument is the ampersand, in which case the
    whole last argument is left out of the argv; on a foreground job the
    argv holds all the arguments. *)
Theorem parseline_background (body : string) :
  (length (arguments body) < MAXARGS)%nat ->
  exists bg_flag argv,
    parseline (body +:+ nl) = Some (bg_flag, argv) /\
    (bg_flag = true <->
       arguments body = [] \/
       exists arg rest,
         last (arguments body) = Some arg /\ arg = String "&" rest) /\
    (arguments body = [] -> argv = []) /\
    (forall arg rest,
       last (arguments body) = Some arg -> arg = String "&" rest ->
       argv = removelast (arguments body)) /\
    (bg_flag = false -> argv = arguments body).
Proof.
  intros Hfits. unfold parseline.
  destruct (body +:+ nl) as [|c0 tail] eqn:Hline;
    [by destruct (line_not_empty body)|].
  rewrite <- Hline, (args_of_arguments body). clear c0 tail Hline.
  destruct (Nat.leb_spec MAXARGS (length (arguments body))); [lia|].
  destruct (last (arguments body)) as [arg|] eqn:Hlast.
  - assert (Hne : arguments body <> []) by (by intros E; rewrite E in Hlast).
    destruct (starts_with_amp arg) eqn:Hamp.
    + apply starts_with_amp_spec in Hamp as (rest & ->).
      exists true, (removelast (arguments body)).
      repeat split; try done.
      intros _. right. by exists (String "&" rest), rest.
    + exists false, (arguments body).
      repeat split; try done.
      * intros [E|(arg' & rest & [= <-] & ->)]; [done|]. simpl in Hamp. done.
      * intros arg' rest [= <-] ->. simpl in Hamp. done.
  - apply last_None in Hlast. exists true, [].
    repeat split; try done;
      try (intros _; by left);
      intros arg rest Hl; by rewrite Hlast in Hl.
Qed.

Lemma parseline_background_witness :
  exists bg_flag argv,
    parseline ("echo 'a  b'c  &x" +:+ nl) = Some (bg_flag, argv) /\
    (bg_flag = true <->
       arguments "echo 'a  b'c  &x" = [] \/
       exists arg rest,
         last (arguments "echo 'a  b'c  &x") = Some arg /\ arg = String "&" rest) /\
    (arguments "echo 'a  b'c  &x" = [] -> argv = []) /\
    (forall arg rest,
       last (arguments "echo 'a  b'c  &x") = Some arg -> arg = String "&" rest ->
       argv = removelast (arguments "echo 'a  b'c  &x")) /\
    (bg_flag = false -> argv = arguments "echo 'a  b'c  &x").
Proof.
  apply (parseline_background "echo 'a  b'c  &x"). vm_compute. lia.
Defined.

(** C10, as the claim states it, fails.  With a tab before the ampersand the
    last token delimited by white space is the ampersand, and parseline
    reports a foreground job whose one argument is the whole line; with a
    quoted span that begins with an ampersand the last such token does not
    begin with one, and parseline reports a background job and leaves the
    span out. *)
Lemma parseline_tab_and_quote :
  answer_by_white_tokens (("ls" +:+ tab +:+ "&") +:+ nl) = (true, ["ls"]) /\
  parseline (("ls" +:+ tab +:+ "&") +:+ nl) = Some (false, ["ls" +:+ tab +:+ "&"]) /\
  answer_by_white_tokens (line "x '&y z'") = (false, ["x"; "'&y"; "z'"]) /\
  parseline (line "x '&y z'") = Some (true, ["x"]) /\
  parseline (("ls" +:+ tab +:+ "&") +:+ nl)
    <> Some (answer_by_white_tokens (("ls" +:+ tab +:+ "&") +:+ nl)) /\
  parseline (line "x '&y z'") <> Some (answer_by_white_tokens (line "x '&y z'")).
Proof. repeat split; by vm_compute. Qed.

(** ** waitfg and the signals that arrive around its test *)

Lemma asleep_without_signal (p : Z) (s : shell) (n : nat) :
  waitfg_run p (s, Asleep) (repeat Proceed n) = (s, Asleep).
Proof. induction n as [|n IH]; [done|]. simpl. apply IH. Qed.

(** X24.  The test of waitfg and the foreground state.  On a table that
    satisfies the data-model invariant and has at most one slot in the
    foreground state, the test of the loop of waitfg, written with pid2jid
    and fgpid, holds exactly when some slot in use holds the pid in the
    state FG. *)
Theorem waitfg_test_foreground (p : Z) (s : shell) :
  table_ok (jobs s) -> one_fg_slot (jobs s) ->
  waitfg_test p s = true <-> in_foreground (jobs s) p.
Proof.
  intros Ht Hone. unfold waitfg_test.
  rewrite andb_true_iff, negb_true_iff, Z.eqb_neq, Z.eqb_eq. split.
  - intros [Hjid Hfg].
    apply (pid2jid_present s p Ht), (present_positive _ _ Ht) in Hjid.
    destruct (fgpid_slot (jobs s) Ht) as (i & job & Hi & Hst & Hpid & Hp); [lia|].
    exists i, job. unfold in_use. repeat split; [done | lia | congruence | done].
  - intros (i & job & Hi & Hu & Hpid & Hst). split.
    + apply (pid2jid_present s p Ht). by exists i, job.
    + unfold fgpid.
      destruct (first_slot_exists (fun job => state job = FG) (jobs s) i job Hi Hst)
        as (k & other & E).
      rewrite E. simpl. apply first_slot_Some in E as (Hk & Hother & _).
      assert (k = i) as -> by (by apply (Hone k i other job)).
      congruence.
Qed.

Lemma waitfg_test_foreground_witness :
  waitfg_test 5 one_fg_job = true <-> in_foreground (jobs one_fg_job) 5.
Proof.
  apply (waitfg_test_foreground 5 one_fg_job).
  - vm_compute. table_ok_by_computation.
  - intros i k a b Hi Hk Ha Hb.
    rewrite (one_fg_job_slots i a Hi (or_intror Ha)),
            (one_fg_job_slots k b Hk (or_intror Hb)). reflexivity.
Defined.

(** C7.  The code when the child ends between the test and the call.  The
    shell waits for the foreground job of pid 5.  When the signal of the
    child's end arrives while the shell is asleep in sigsuspend, the
    handler clears the job, sigsuspend returns, the test fails and waitfg
    returns.  When the same signal arrives after the test has held and
    before sigsuspend is called, the handler clears the job all the same,
    and waitfg then goes to sleep: the pid is in no slot, no job is in the
    foreground, the test would fail, and, however long the program is
    given, waitfg has not returned. *)
Theorem waitfg_lost_wakeup (n : nat) :
  waitfg_run 5 (one_fg_job, AtTest)
             [Proceed; Proceed; Deliver (Chld [(5, Exited 0)]); Proceed]
    = (sigchld_handler [(5, Exited 0)] one_fg_job, Returned) /\
  waitfg_run 5 (one_fg_job, AtTest)
             ([Proceed; Deliver (Chld [(5, Exited 0)]); Proceed] ++ repeat Proceed n)
    = (sigchld_handler [(5, Exited 0)] one_fg_job, Asleep) /\
  in_foreground (jobs one_fg_job) 5 /\
  ~ present (jobs (sigchld_handler [(5, Exited 0)] one_fg_job)) 5 /\
  (forall p, ~ in_foreground (jobs (sigchld_handler [(5, Exited 0)] one_fg_job)) p) /\
  waitfg_test 5 (sigchld_handler [(5, Exited 0)] one_fg_job) = false.
Proof.
  assert (Hfree : Forall (fun job => pid job = 0)
                         (jobs (sigchld_handler [(5, Exited 0)] one_fg_job))).
  { vm_compute. repeat constructor. }
  rewrite Forall_lookup in Hfree.
  split; [reflexivity|]. split.
  { unfold waitfg_run. rewrite foldl_app.
    change (foldl (waitfg_tick 5) (one_fg_job, AtTest)
                  [Proceed; Deliver (Chld [(5, Exited 0)]); Proceed])
      with (sigchld_handler [(5, Exited 0)] one_fg_job, Asleep).
    apply asleep_without_signal. }
  split; [exists 0%nat, (Job 5 1 FG (line "sleep 100")); by vm_compute|].
  split; [intros (i & job & Hi & Hu & _); by apply Hu, (Hfree i)|].
  split; [intros p (i & job & Hi & Hu & _); by apply Hu, (Hfree i)|].
  reflexivity.
Qed.
